(** * FinanceRAG: the retrieval pipeline of [financerag/tasks/BaseTask.py]

    A shallow embedding of [BaseTask]: the memoised keyword expansion, the
    hybrid retrieve-and-rerank loop with its pandas frame manipulations, the
    staged [generate] call and the static [evaluate] method, followed by the
    properties established about them.

    Conventions.
    - A Python [dict] is an association list in insertion order with unique
      keys ([Dict]); assignment to an existing key keeps the key's position.
    - A [float] is a rational number or NaN ([None]); the code only compares,
      adds and divides scores, and these are taken exactly.
    - A raised exception is the [Raise] branch of [result].
    - The external services (the chat completion client, the search table with
      its reranker, the generation model, pytrec_eval) are fields of records
      passed to the functions that call them; every call to the first two is
      appended to the [calls] log of the [World]. *)

From Stdlib Require Import List String Ascii Bool ZArith QArith Qround Lia.
From Stdlib Require Import Sorting.Sorted Sorting.Permutation.
From Stdlib Require Import DecimalString DecimalZ.
Import ListNotations.

Local Open Scope string_scope.
Local Open Scope list_scope.

(* ================================================================== *)
(** * Part I: the embedding *)
(* ================================================================== *)

(** ** Exceptions and results *)

Inductive exn : Type :=
| ValueError
| KeyError
| TypeError
| AssertionError
| ZeroDivisionError
| CollaboratorError.

Inductive result (A : Type) : Type :=
| Ok (a : A)
| Raise (e : exn).

Arguments Ok {A} a.
Arguments Raise {A} e.

Definition bind {A B : Type} (r : result A) (k : A -> result B) : result B :=
  match r with
  | Ok a => k a
  | Raise e => Raise e
  end.

Notation "'let*' x ':=' r 'in' k" := (bind r (fun x => k))
  (at level 10, x name, r at level 100, k at level 200).

(** ** Floats *)

Definition float : Type := option Q.

Definition nan : float := None.

(** [x > y] on floats; every comparison with NaN is false. *)
Definition float_gt (x y : float) : bool :=
  match x, y with
  | Some a, Some b => negb (Qle_bool a b)
  | _, _ => false
  end.

(** ** Insertion-ordered dictionaries *)

Module Dict.

Definition t (V : Type) : Type := list (string * V).

Definition keys {V : Type} (d : t V) : list string := map fst d.

Definition values {V : Type} (d : t V) : list V := map snd d.

Fixpoint get {V : Type} (k : string) (d : t V) : option V :=
  match d with
  | [] => None
  | (k', v) :: d' => if String.eqb k k' then Some v else get k d'
  end.

Definition mem {V : Type} (k : string) (d : t V) : bool :=
  match get k d with Some _ => true | None => false end.

(** [d[k] = v]. *)
Fixpoint set {V : Type} (k : string) (v : V) (d : t V) : t V :=
  match d with
  | [] => [(k, v)]
  | (k', v') :: d' =>
      if String.eqb k k' then (k, v) :: d' else (k', v') :: set k v d'
  end.

(** [d.pop(k)] for a key that is present; the popped value is not used. *)
Fixpoint pop {V : Type} (k : string) (d : t V) : t V :=
  match d with
  | [] => []
  | (k', v') :: d' =>
      if String.eqb k k' then d' else (k', v') :: pop k d'
  end.

(** [{k: v for k, v in items}]. *)
Definition of_items {V : Type} (items : list (string * V)) : t V :=
  fold_left (fun d kv => set (fst kv) (snd kv) d) items [].

End Dict.

(** [x in xs] for a list (or set) of strings. *)
Definition str_in (x : string) (xs : list string) : bool :=
  existsb (String.eqb x) xs.

(** ** Strings: [sep.join(parts)] and [s.split(sep)] *)

Fixpoint join (sep : string) (parts : list string) : string :=
  match parts with
  | [] => EmptyString
  | [p] => p
  | p :: ps => p ++ sep ++ join sep ps
  end.

(** [split_aux sep skip cur s]: [cur] is the piece being read, [skip] the
    number of separator characters still to pass over. *)
Fixpoint split_aux (sep : string) (skip : nat) (cur : string) (s : string)
  : list string :=
  match s with
  | EmptyString => [cur]
  | String c s' =>
      match skip with
      | S n => split_aux sep n cur s'
      | O =>
          if String.prefix sep s
          then cur :: split_aux sep (String.length sep - 1) EmptyString s'
          else split_aux sep 0 (cur ++ String c EmptyString) s'
      end
  end.

(** [s.split(sep)] for a non-empty separator. *)
Definition split (sep : string) (s : string) : list string :=
  split_aux sep 0 EmptyString s.

(** ** pandas frames

    A frame returned by the search table has the columns of [TextSchema]
    ([doc_id], [find_id], [title], [text], [vector]), which [add] always
    fills, and the float columns the search and the reranker append
    ([_score], [_relevance_score], [_distance], ...).  The embedding keeps
    [doc_id] and the float columns: [columns] lists the labels of the float
    columns and each row holds one cell per label, in the same order; a cell
    is NaN when it is [None] or when the row is too short. *)

Module Pandas.

Record Row : Type := mkRow {
  doc_id : string;
  cells : list float
}.

Record DataFrame : Type := mkFrame {
  columns : list string;
  rows : list Row
}.

(** [pandas.DataFrame()]. *)
Definition empty_frame : DataFrame := mkFrame [] [].

(** [len(df)]. *)
Definition len (df : DataFrame) : nat := List.length (rows df).

(** [df.empty]; the [doc_id] column is there whenever a row is. *)
Definition empty (df : DataFrame) : bool :=
  match rows df with [] => true | _ :: _ => false end.

Definition has_column (c : string) (df : DataFrame) : bool :=
  str_in c (columns df).

Fixpoint index_of (c : string) (cols : list string) : option nat :=
  match cols with
  | [] => None
  | c' :: cols' =>
      if String.eqb c c' then Some O
      else option_map S (index_of c cols')
  end.

(** The cell of row [r] under label [c] in a frame with labels [cols]. *)
Definition cell (cols : list string) (c : string) (r : Row) : float :=
  match index_of c cols with
  | Some i => nth i (cells r) nan
  | None => nan
  end.

(** [df.rename(columns={old: new}, inplace=True)]. *)
Definition rename (old new : string) (df : DataFrame) : DataFrame :=
  mkFrame
    (map (fun c => if String.eqb c old then new else c) (columns df))
    (rows df).

(** Labels of [cols2] that are not in [cols1], in order. *)
Definition new_labels (cols1 cols2 : list string) : list string :=
  filter (fun c => negb (str_in c cols1)) cols2.

(** A row of a frame with labels [cols] laid out under [cols']. *)
Definition realign (cols cols' : list string) (r : Row) : Row :=
  mkRow (doc_id r) (map (fun c => cell cols c r) cols').

(** [pandas.concat([df1, df2], ignore_index=True)]: the union of the
    labels, the rows of [df1] then those of [df2], NaN where a frame has
    no such column. *)
Definition concat (df1 df2 : DataFrame) : DataFrame :=
  let cols := columns df1 ++ new_labels (columns df1) (columns df2) in
  mkFrame cols
    (map (realign (columns df1) cols) (rows df1)
     ++ map (realign (columns df2) cols) (rows df2)).

(** Rows whose [doc_id] was not seen before, first occurrence kept. *)
Fixpoint dedup (seen : list string) (rs : list Row) : list Row :=
  match rs with
  | [] => []
  | r :: rs' =>
      if str_in (doc_id r) seen then dedup seen rs'
      else r :: dedup (doc_id r :: seen) rs'
  end.

(** [df.drop_duplicates(subset=['doc_id'], keep='first', inplace=True)]. *)
Definition drop_duplicates (df : DataFrame) : DataFrame :=
  mkFrame (columns df) (dedup [] (rows df)).

Definition is_nan (x : float) : bool :=
  match x with None => true | Some _ => false end.

(** A row has a missing value when one of its cells under the frame's
    labels is NaN. *)
Definition has_na (cols : list string) (r : Row) : bool :=
  existsb (fun c => is_nan (cell cols c r)) cols.

(** [df.dropna(inplace=True)]: drop every row with a missing value. *)
Definition dropna (df : DataFrame) : DataFrame :=
  mkFrame (columns df)
          (filter (fun r => negb (has_na (columns df) r)) (rows df)).

(** Descending order of sort keys, NaN last. *)
Definition key_ge (x y : float) : bool :=
  match x, y with
  | Some a, Some b => Qle_bool b a
  | Some _, None => true
  | None, Some _ => false
  | None, None => true
  end.

(** Sorting is by insertion, which keeps rows with equal keys in their
    order; pandas leaves that order to its sorting algorithm, and nothing
    below depends on it. *)
Fixpoint insert_desc (key : Row -> float) (r : Row) (rs : list Row)
  : list Row :=
  match rs with
  | [] => [r]
  | r' :: rs' =>
      if key_ge (key r) (key r') then r :: r' :: rs'
      else r' :: insert_desc key r rs'
  end.

Definition sort_desc (key : Row -> float) (rs : list Row) : list Row :=
  fold_right (insert_desc key) [] rs.

(** [df.sort_values(by=c, ascending=False).reset_index(drop=True)];
    [KeyError] when there is no column [c]. *)
Definition sort_values_desc (c : string) (df : DataFrame)
  : result DataFrame :=
  if has_column c df
  then Ok (mkFrame (columns df) (sort_desc (cell (columns df) c) (rows df)))
  else Raise KeyError.

(** [zip(df['doc_id'], df[c])]; [KeyError] when there is no column [c]. *)
Definition zip_doc_id (c : string) (df : DataFrame)
  : result (list (string * float)) :=
  if has_column c df
  then Ok (map (fun r => (doc_id r, cell (columns df) c r)) (rows df))
  else Raise KeyError.

End Pandas.

Import Pandas.

(** ** The external services and the log of their calls *)

Inductive query_type : Type := fts | hybrid | vector.

Inductive call : Type :=
| ChatCompletion (query : string)
| Search (qt : query_type) (query : string) (limit : Z).

(** [chat log query] is the content of the first choice of
    [client.chat.completions.create] for the user message of [query], and
    [search log qt query limit] the frame of
    [hybrid_retriever.search(query, query_type=qt).rerank(reranker)
     .limit(limit).to_pandas()]; [None] when the call raises.  Both may
    depend on the calls made so far ([log], newest first). *)
Record Services : Type := mkServices {
  chat : list call -> string -> option string;
  search : list call -> query_type -> string -> Z -> option DataFrame
}.

(** What the task instance carries from one call to the next: the log of
    service calls and the store of the [lru_cache] wrapper, most recently
    used entry first. *)
Record World : Type := mkWorld {
  calls : list call;
  kw_cache : list (string * list string)
}.

Definition initial_world : World := mkWorld [] [].

(** ** [functools.lru_cache(maxsize=1000)] *)

Definition maxsize : nat := 1000.

Fixpoint cache_find (k : string) (c : list (string * list string))
  : option (list string) :=
  match c with
  | [] => None
  | (k', v) :: c' => if String.eqb k k' then Some v else cache_find k c'
  end.

Fixpoint cache_remove (k : string) (c : list (string * list string))
  : list (string * list string) :=
  match c with
  | [] => []
  | (k', v) :: c' =>
      if String.eqb k k' then c' else (k', v) :: cache_remove k c'
  end.

(** A hit moves the entry to the most recently used end. *)
Definition cache_touch (k : string) (v : list string)
  (c : list (string * list string)) : list (string * list string) :=
  (k, v) :: cache_remove k c.

(** A miss stores the new entry; a full store first gives up its least
    recently used entry. *)
Definition cache_store (k : string) (v : list string)
  (c : list (string * list string)) : list (string * list string) :=
  if Nat.leb maxsize (List.length c) then (k, v) :: removelast c
  else (k, v) :: c.

(** ** [BaseTask.keyword_extraction_expansion]

    The body of the method: one chat completion, whose content is split at
    [", "]. *)
Definition keyword_extraction_expansion_body (sv : Services) (w : World)
  (query : string) : result (list string) * World :=
  let w' := mkWorld (ChatCompletion query :: calls w) (kw_cache w) in
  match chat sv (calls w) query with
  | Some response => (Ok (split ", " response), w')
  | None => (Raise CollaboratorError, w')
  end.

(** The method as decorated: the call [keyword_extraction_expansion(query)]
    on a fixed instance, so that the cache key is the query text. *)
Definition keyword_extraction_expansion (sv : Services) (w : World)
  (query : string) : result (list string) * World :=
  match cache_find query (kw_cache w) with
  | Some keywords =>
      (Ok keywords, mkWorld (calls w) (cache_touch query keywords (kw_cache w)))
  | None =>
      match keyword_extraction_expansion_body sv w query with
      | (Ok keywords, w') =>
          (Ok keywords,
           mkWorld (calls w') (cache_store query keywords (kw_cache w')))
      | (Raise e, w') => (Raise e, w')
      end
  end.

(** ** [BaseTask._rename_score_column]

    Returns the frame as the in-place renaming leaves it, with the method's
    boolean. *)
Definition _rename_score_column (df : DataFrame) (new_name : string)
  : result (DataFrame * bool) :=
  if has_column new_name df || Nat.eqb (len df) 0 then Ok (df, false)
  else if has_column "_score" df
  then Ok (rename "_score" new_name df, true)
  else if has_column "_relevance_score" df
  then Ok (rename "_relevance_score" new_name df, true)
  else Raise ValueError.

(** ** [BaseTask.hybrid_retrieve_rerank] *)

Definition RankingResult : Type := Dict.t (Dict.t float).

(** One logged call of the search table. *)
Definition run_search (sv : Services) (w : World) (qt : query_type)
  (query : string) (top_k : Z) : option DataFrame * World :=
  (search sv (calls w) qt query top_k,
   mkWorld (Search qt query top_k :: calls w) (kw_cache w)).

(** Step 1, the [try] block of the full-text search: [retrieved_docs_1]
    after it.  An exception raised before the assignment leaves the default
    empty frame; one raised by the renaming leaves the frame as retrieved. *)
Definition fts_stage (sv : Services) (w : World) (query : string) (top_k : Z)
  : DataFrame * World :=
  match keyword_extraction_expansion sv w query with
  | (Raise _, w1) => (empty_frame, w1)
  | (Ok keywords, w1) =>
      let query_kw := join "; " keywords in
      match run_search sv w1 fts query_kw top_k with
      | (None, w2) => (empty_frame, w2)
      | (Some retrieved_docs_1, w2) =>
          match _rename_score_column retrieved_docs_1 "score" with
          | Ok (renamed, _) => (renamed, w2)
          | Raise _ => (retrieved_docs_1, w2)
          end
      end
  end.

(** Step 2, the hybrid search with its fallback to the vector search:
    [None] when both raise. *)
Definition dense_stage (sv : Services) (w : World) (query : string)
  (top_k : Z) : option DataFrame * World :=
  match run_search sv w hybrid query top_k with
  | (Some retrieved_docs, w1) => (Some retrieved_docs, w1)
  | (None, w1) => run_search sv w1 vector query top_k
  end.

(** Lines 269-271: the full-text rows first, then one row per [doc_id]. *)
Definition combine (retrieved_docs_1 retrieved_docs : DataFrame)
  : DataFrame :=
  if negb (empty retrieved_docs_1)
  then drop_duplicates (concat retrieved_docs_1 retrieved_docs)
  else retrieved_docs.

(** Lines 274-278: drop rows with missing values, name the score column,
    sort, and build the query's mapping. *)
Definition finalize (retrieved_docs : DataFrame) : result (Dict.t float) :=
  let cleaned := dropna retrieved_docs in
  let* renamed := _rename_score_column cleaned "score" in
  let* sorted := sort_values_desc "score" (fst renamed) in
  let* pairs := zip_doc_id "score" sorted in
  Ok (Dict.of_items pairs).

(** [query_ids and q_id not in query_ids]. *)
Definition skipped (query_ids : option (list string)) (q_id : string)
  : bool :=
  match query_ids with
  | None | Some [] => false
  | Some ids => negb (str_in q_id ids)
  end.

(** The body of the [for] loop over [self.queries.items()], with the
    [results] built so far. *)
Fixpoint hybrid_loop (sv : Services) (top_k : Z)
  (query_ids : option (list string)) (items : list (string * string))
  (results : RankingResult) (w : World) : result RankingResult * World :=
  match items with
  | [] => (Ok results, w)
  | (q_id, query) :: rest =>
      if skipped query_ids q_id
      then hybrid_loop sv top_k query_ids rest results w
      else
        let '(retrieved_docs_1, w1) := fts_stage sv w query top_k in
        match dense_stage sv w1 query top_k with
        | (None, w2) =>
            hybrid_loop sv top_k query_ids rest (Dict.set q_id [] results) w2
        | (Some retrieved_docs, w2) =>
            match finalize (combine retrieved_docs_1 retrieved_docs) with
            | Raise e => (Raise e, w2)
            | Ok mapping =>
                hybrid_loop sv top_k query_ids rest
                            (Dict.set q_id mapping results) w2
            end
        end
  end.

Definition hybrid_retrieve_rerank (sv : Services) (queries : Dict.t string)
  (w : World) (top_k : Z) (query_ids : option (list string))
  : result RankingResult * World :=
  hybrid_loop sv top_k query_ids queries [] w.

(** ** The staged pipeline: [BaseTask.generate] *)

Record Document : Type := mkDocument {
  title : string;
  text : string
}.

(** The content of a chat message: a literal text, or the prompt that
    [default_messages] formats from a document and a question. *)
Inductive Content : Type :=
| Text (s : string)
| DocumentPrompt (document : Document) (question : string).

Record Message : Type := mkMessage {
  role : string;
  content : Content
}.

(** A [model] argument: whether its type is a subclass of [Generator], and
    its [generation] method. *)
Record GeneratorModel : Type := mkGeneratorModel {
  is_generator : bool;
  generation : Dict.t (list Message) -> result (Dict.t string)
}.

Definition PrepareMessages : Type :=
  string -> list (Document * float) -> result (list Message).

Record BaseTask : Type := mkBaseTask {
  queries : option (Dict.t string);
  corpus : option (Dict.t Document);
  retrieve_results : option RankingResult;
  rerank_results : option RankingResult;
  generate_results : option (Dict.t string)
}.

Definition set_generate_results (task : BaseTask) (g : Dict.t string)
  : BaseTask :=
  mkBaseTask (queries task) (corpus task) (retrieve_results task)
             (rerank_results task) (Some g).

(** [max(documents, key=lambda x: x[1])] over the items after [best]: the
    first item with the greatest score. *)
Fixpoint max_by_score (best : Document * float)
  (documents : list (Document * float)) : Document * float :=
  match documents with
  | [] => best
  | x :: rest =>
      max_by_score (if float_gt (snd x) (snd best) then x else best) rest
  end.

Definition default_messages : PrepareMessages :=
  fun query documents =>
    match documents with
    | [] => Raise ValueError
    | d :: rest =>
        let first_document := fst (max_by_score d rest) in
        Ok [ mkMessage "system" (Text "You are a helpful assistant.");
             mkMessage "user" (DocumentPrompt first_document query) ]
    end.

(** Lines 475-484 of [generate]: the results the generation runs on. *)
Definition generation_input (task : BaseTask)
  (results : option RankingResult) : result RankingResult :=
  match results with
  | Some given => Ok given
  | None =>
      let chosen :=
        match rerank_results task with
        | None => rerank_results task
        | Some _ => retrieve_results task
        end in
      match chosen with
      | Some r => Ok r
      | None => Raise AssertionError
      end
  end.

(** The choice [save_results] makes between the same two attributes. *)
Definition final_result (task : BaseTask) : option RankingResult :=
  match rerank_results task with
  | Some r => Some r
  | None => retrieve_results task
  end.

(** [[(self.corpus[doc_id], score) for doc_id, score in result.items()]]. *)
Fixpoint lookup_documents (corpus : Dict.t Document) (result_ : Dict.t float)
  : result (list (Document * float)) :=
  match result_ with
  | [] => Ok []
  | (doc_id, score) :: rest =>
      match Dict.get doc_id corpus with
      | None => Raise KeyError
      | Some d =>
          let* ds := lookup_documents corpus rest in Ok ((d, score) :: ds)
      end
  end.

Fixpoint prepare_loop (queries : Dict.t string) (corpus : Dict.t Document)
  (prepare_messages : PrepareMessages) (items : list (string * Dict.t float))
  (messages_dict : Dict.t (list Message)) : result (Dict.t (list Message)) :=
  match items with
  | [] => Ok messages_dict
  | (query_id, result_) :: rest =>
      match Dict.get query_id queries with
      | None => Raise KeyError
      | Some query =>
          let* documents := lookup_documents corpus result_ in
          let* messages := prepare_messages query documents in
          prepare_loop queries corpus prepare_messages rest
                       (Dict.set query_id messages messages_dict)
      end
  end.

Definition prepare_generation_inputs (task : BaseTask)
  (results : RankingResult) (prepare_messages : PrepareMessages)
  : result (Dict.t (list Message)) :=
  match corpus task, queries task with
  | Some c, Some q => prepare_loop q c prepare_messages results []
  | _, _ => Raise ValueError
  end.

Definition generate (task : BaseTask) (model : GeneratorModel)
  (results : option RankingResult) (prepare_messages : option PrepareMessages)
  : result (Dict.t string) * BaseTask :=
  if negb (is_generator model) then (Raise TypeError, task)
  else
    let prepare :=
      match prepare_messages with
      | Some f => f
      | None => default_messages
      end in
    let outcome :=
      let* input := generation_input task results in
      let* messages_dict := prepare_generation_inputs task input prepare in
      generation model messages_dict in
    match outcome with
    | Ok generated => (Ok generated, set_generate_results task generated)
    | Raise e => (Raise e, task)
    end.

(** ** Relevance evaluation: [BaseTask.evaluate] *)

Inductive measure : Type := ndcg_cut | map_cut | recall_ | P_.

(** The arithmetic of the metric values, which are Python floats: the type
    of the values, [0.0], [x + y], [x / n] for an integer [n >= 1], and
    [round(x, 5)].  [evaluate] is embedded over any such arithmetic, so
    that nothing is assumed of the rounding of doubles. *)
Record Arith : Type := mkArith {
  num : Type;
  fzero : num;
  fadd : num -> num -> num;
  fdiv : num -> nat -> num;
  fround : num -> num
}.

(** pytrec_eval on one query of the run that has an entry in [qrels]: from
    the query's judgments and its ranking, the scores by measure and
    cutoff, or [None] when the evaluator returns no entry for the query
    (as it does for a query without judged documents). *)
Definition TrecEval (A : Arith) : Type :=
  Dict.t Z -> Dict.t float -> option (measure -> Z -> num A).

Definition Qrels : Type := Dict.t (Dict.t Z).

(** The four dictionaries [evaluate] builds and returns. *)
Record Metrics (A : Arith) : Type := mkMetrics {
  ndcg : Dict.t (num A);
  _map : Dict.t (num A);
  recall : Dict.t (num A);
  precision : Dict.t (num A)
}.

Arguments mkMetrics {A} ndcg _map recall precision.
Arguments ndcg {A} m.
Arguments _map {A} m.
Arguments recall {A} m.
Arguments precision {A} m.

(** [str(k)]. *)
Definition str (k : Z) : string := NilEmpty.string_of_int (Z.to_int k).

Definition ndcg_key (k : Z) : string := "NDCG@" ++ str k.
Definition map_key (k : Z) : string := "MAP@" ++ str k.
Definition recall_key (k : Z) : string := "Recall@" ++ str k.
Definition precision_key (k : Z) : string := "P@" ++ str k.

(** Rounding of a rational to the nearest multiple of 10^-5, ties to the
    even one. *)
Definition round_half_even (x : Q) : Z :=
  let f := Qfloor x in
  match Qcompare (x - inject_Z f) (1 # 2) with
  | Lt => f
  | Gt => (f + 1)%Z
  | Eq => if Z.even f then f else (f + 1)%Z
  end.

Definition round5 (x : Q) : Q :=
  inject_Z (round_half_even (x * inject_Z 100000)) / inject_Z 100000.

(** Arithmetic without rounding error, for examples whose values doubles
    hold exactly. *)
Definition exact_arith : Arith :=
  mkArith Q 0 Qplus (fun x n => x / inject_Z (Z.of_nat n)) round5.

(** The inner loop of lines 616-619 for one query: [results[qid].pop(pid)]
    for each key [pid] of the query's mapping that equals [qid]. *)
Definition pop_identical (qid : string) (rels : Dict.t float)
  : Dict.t float :=
  fold_left
    (fun current pid =>
       if String.eqb qid pid then Dict.pop pid current else current)
    (Dict.keys rels) rels.

(** Lines 615-619: the caller's [results] after the removal. *)
Definition remove_identical (results : RankingResult) : RankingResult :=
  map (fun entry => (fst entry, pop_identical (fst entry) (snd entry)))
      results.

(** Line 622. *)
Definition filter_results (qrels : Qrels) (results : RankingResult)
  : RankingResult :=
  filter (fun entry => Dict.mem (fst entry) qrels) results.

(** [evaluator.evaluate(filtered_results)]: an entry for each query of the
    run that has an entry in [qrels] and that the evaluator scores. *)
Definition trec_scores {A : Arith} (pt : TrecEval A) (qrels : Qrels)
  (run : RankingResult) : Dict.t (measure -> Z -> num A) :=
  flat_map
    (fun entry =>
       match Dict.get (fst entry) qrels with
       | Some judgments =>
           match pt judgments (snd entry) with
           | Some sc => [(fst entry, sc)]
           | None => []
           end
       | None => []
       end)
    run.

(** Lines 631-635. *)
Definition init_metrics {A : Arith} (k_values : list Z) : Metrics A :=
  fold_left
    (fun m k =>
       mkMetrics (Dict.set (ndcg_key k) (fzero A) (ndcg m))
                 (Dict.set (map_key k) (fzero A) (_map m))
                 (Dict.set (recall_key k) (fzero A) (recall m))
                 (Dict.set (precision_key k) (fzero A) (precision m)))
    k_values (mkMetrics [] [] [] []).

(** [d[key] += x]; [KeyError] when [key] is not in [d]. *)
Definition add_to {A : Arith} (key : string) (x : num A)
  (d : Dict.t (num A)) : result (Dict.t (num A)) :=
  match Dict.get key d with
  | Some y => Ok (Dict.set key (fadd A y x) d)
  | None => Raise KeyError
  end.

(** Lines 650-654 for one query. *)
Definition add_query {A : Arith} (sc : measure -> Z -> num A)
  (k_values : list Z) (m : Metrics A) : result (Metrics A) :=
  fold_left
    (fun acc k =>
       let* m := acc in
       let* n := add_to (ndcg_key k) (sc ndcg_cut k) (ndcg m) in
       let* a := add_to (map_key k) (sc map_cut k) (_map m) in
       let* r := add_to (recall_key k) (sc recall_ k) (recall m) in
       let* p := add_to (precision_key k) (sc P_ k) (precision m) in
       Ok (mkMetrics n a r p))
    k_values (Ok m).

(** Lines 649-654. *)
Definition aggregate {A : Arith} (scores : Dict.t (measure -> Z -> num A))
  (k_values : list Z) (m : Metrics A) : result (Metrics A) :=
  fold_left
    (fun acc entry => let* m := acc in add_query (snd entry) k_values m)
    scores (Ok m).

(** [d[key] = round(d[key] / n, 5)]; the division raises when [n] is 0. *)
Definition average_at {A : Arith} (key : string) (n : nat)
  (d : Dict.t (num A)) : result (Dict.t (num A)) :=
  match Dict.get key d with
  | None => Raise KeyError
  | Some y =>
      match n with
      | O => Raise ZeroDivisionError
      | S _ => Ok (Dict.set key (fround A (fdiv A y n)) d)
      end
  end.

(** Lines 657-661, with [n = len(scores)]. *)
Definition average {A : Arith} (n : nat) (k_values : list Z) (m : Metrics A)
  : result (Metrics A) :=
  fold_left
    (fun acc k =>
       let* m := acc in
       let* nd := average_at (ndcg_key k) n (ndcg m) in
       let* a := average_at (map_key k) n (_map m) in
       let* r := average_at (recall_key k) n (recall m) in
       let* p := average_at (precision_key k) n (precision m) in
       Ok (mkMetrics nd a r p))
    k_values (Ok m).

(** [evaluate]: the caller's [results] object after the call, and the
    returned metrics or the exception raised.  Without a cutoff the measure
    strings of lines 638-641 name no cutoff, and the constructor of the
    evaluator (line 644) raises [ValueError]. *)
Definition evaluate {A : Arith} (pt : TrecEval A) (qrels : Qrels)
  (results : RankingResult) (k_values : list Z) (ignore_identical_ids : bool)
  : RankingResult * result (Metrics A) :=
  let results' :=
    if ignore_identical_ids then remove_identical results else results in
  let filtered_results := filter_results qrels results' in
  (results',
   match k_values with
   | [] => Raise ValueError
   | _ :: _ =>
       let scores := trec_scores pt qrels filtered_results in
       let* summed := aggregate scores k_values (init_metrics k_values) in
       average (List.length scores) k_values summed
   end).

(** ** Notions used to state the properties *)

(** A dictionary of [Metrics] and its key, by measure. *)
Definition field {A : Arith} (meas : measure) (m : Metrics A)
  : Dict.t (num A) :=
  match meas with
  | ndcg_cut => ndcg m
  | map_cut => _map m
  | recall_ => recall m
  | P_ => precision m
  end.

Definition key (meas : measure) (k : Z) : string :=
  match meas with
  | ndcg_cut => ndcg_key k
  | map_cut => map_key k
  | recall_ => recall_key k
  | P_ => precision_key k
  end.

(** [d[key] += x] and [d[key] = round(d[key] / n, 5)] on a dictionary that
    has the key. *)
Definition bump {A : Arith} (key : string) (x : num A) (d : Dict.t (num A))
  : Dict.t (num A) :=
  match Dict.get key d with
  | Some y => Dict.set key (fadd A y x) d
  | None => d
  end.

Definition rescale {A : Arith} (key : string) (n : nat)
  (d : Dict.t (num A)) : Dict.t (num A) :=
  match Dict.get key d with
  | Some y => Dict.set key (fround A (fdiv A y n)) d
  | None => d
  end.

(** All the labels of [ks] are keys of the four dictionaries. *)
Definition labelled {A : Arith} (ks : list Z) (m : Metrics A) : Prop :=
  forall meas k, In k ks -> Dict.get (key meas k) (field meas m) <> None.

(** The sum of a list of values, added from the left starting at [0.0],
    and their mean: the sum divided by their number. *)
Definition total {A : Arith} (xs : list (num A)) : num A :=
  fold_left (fadd A) xs (fzero A).

Definition mean {A : Arith} (xs : list (num A)) : num A :=
  fdiv A (total xs) (List.length xs).

(** [qrels[qid]]. *)
Definition judged (qrels : Qrels) (qid : string) : Dict.t Z :=
  match Dict.get qid qrels with
  | Some j => j
  | None => []
  end.

(** The queries of a run that have an entry in [qrels]. *)
Definition scored_queries (qrels : Qrels) (run : RankingResult)
  : RankingResult :=
  filter (fun entry => str_in (fst entry) (Dict.keys qrels)) run.

(** Whether the evaluator returns an entry for a query of the run. *)
Definition is_scored {A : Arith} (pt : TrecEval A) (qrels : Qrels)
  (entry : string * Dict.t float) : bool :=
  match pt (judged qrels (fst entry)) (snd entry) with
  | Some _ => true
  | None => false
  end.

(** The queries of a run that are evaluated: those with an entry in
    [qrels] for which the evaluator returns scores. *)
Definition evaluated {A : Arith} (pt : TrecEval A) (qrels : Qrels)
  (run : RankingResult) : RankingResult :=
  filter (is_scored pt qrels) (scored_queries qrels run).

(** The score of one query of the run for a measure at a cutoff. *)
Definition query_score {A : Arith} (pt : TrecEval A) (qrels : Qrels)
  (meas : measure) (k : Z) (entry : string * Dict.t float) : num A :=
  match pt (judged qrels (fst entry)) (snd entry) with
  | Some sc => sc meas k
  | None => fzero A
  end.

(** Orders on the scores of a mapping: each entry's score is at least
    (greater than) the next entry's score, and no score is NaN. *)
Definition score_ge (a b : string * float) : Prop :=
  match snd a, snd b with
  | Some x, Some y => (y <= x)%Q
  | _, _ => False
  end.

Definition score_gt (a b : string * float) : Prop :=
  match snd a, snd b with
  | Some x, Some y => (y < x)%Q
  | _, _ => False
  end.

Definition descending (m : Dict.t float) : Prop := StronglySorted score_ge m.

Definition strictly_descending (m : Dict.t float) : Prop :=
  Sorted score_gt m.

(** Keyword expansion of each query of [qs] in turn, results dropped. *)
Definition expand_all (sv : Services) (w : World) (qs : list string)
  : World :=
  fold_left (fun w q => snd (keyword_extraction_expansion sv w q)) qs w.



(** The queries a call with [query_ids] goes through. *)
Definition processed (query_ids : option (list string))
  (queries : Dict.t string) : Dict.t string :=
  filter (fun entry => negb (skipped query_ids (fst entry))) queries.

(** The position of the entry of [k] in the cache, counted from the most
    recently used end. *)
Fixpoint cache_rank (k : string) (c : list (string * list string))
  : option nat :=
  match c with
  | [] => None
  | (k', _) :: c' =>
      if String.eqb k k' then Some O else option_map S (cache_rank k c')
  end.

(** The cache holds [v] for [k], at most [j] entries from the most recently
    used end. *)
Definition cached_within (j : nat) (k : string) (v : list string)
  (c : list (string * list string)) : Prop :=
  cache_find k c = Some v
  /\ exists i, cache_rank k c = Some i /\ (i <= j)%nat.

(** The column of a non-empty frame that ends up as the score column. *)
Definition score_label (df : DataFrame) : option string :=
  if has_column "score" df then Some "score"
  else if has_column "_score" df then Some "_score"
  else if has_column "_relevance_score" df then Some "_relevance_score"
  else None.

(** The rows of a frame that have no missing value. *)
Definition complete_rows (df : DataFrame) : list Row :=
  filter (fun r => negb (has_na (columns df) r)) (rows df).

(** The order [sort_desc] puts rows in. *)
Definition key_order (key : Row -> float) (a b : Row) : Prop :=
  key_ge (key a) (key b) = true.

(** ** Further methods of [BaseTask] *)

(** *** [load_data] *)

(** The rows the dataset loader yields. *)
Record QueryRecord : Type := mkQueryRecord {
  query_id : string;
  query_text : string
}.

Record DocumentRecord : Type := mkDocumentRecord {
  document_id : string;
  document_title : string;
  document_text : string
}.

(** [load_data], with the outcome of [HFDataLoader(...).load()]; the loader
    is consulted only when the corpus or the queries are missing. *)
Definition load_data (task : BaseTask)
  (loaded : result (list DocumentRecord * list QueryRecord))
  : result BaseTask :=
  match corpus task, queries task with
  | Some _, Some _ => Ok task
  | _, _ =>
      let* data := loaded in
      Ok (mkBaseTask
            (Some (Dict.of_items
                     (map (fun q => (query_id q, query_text q)) (snd data))))
            (Some (Dict.of_items
                     (map (fun d =>
                             (document_id d,
                              mkDocument (document_title d) (document_text d)))
                          (fst data))))
            (retrieve_results task) (rerank_results task)
            (generate_results task))
  end.

(** *** The batches of [create_hybrid_retriever] *)

(** [range(i, stop, step)] for a positive [step]; [fuel] bounds the number
    of elements. *)
Fixpoint range_from (fuel i stop step : nat) : list nat :=
  match fuel with
  | O => []
  | S fuel' =>
      if Nat.ltb i stop then i :: range_from fuel' (i + step) stop step
      else []
  end.

(** [range(0, stop, step)]: [ValueError] for a zero step, empty for a
    negative one. *)
Definition range0 (stop : nat) (step : Z) : result (list nat) :=
  if (step =? 0)%Z then Raise ValueError
  else if (step <? 0)%Z then Ok []
  else Ok (range_from stop 0 stop (Z.to_nat step)).

(** [l[i:j]] for [0 <= i <= j], and [l[i:]]. *)
Definition slice {A : Type} (l : list A) (i j : nat) : list A :=
  firstn (j - i) (skipn i l).

(** Lines 146-151: the batches of [corpus_list] that are handed to the
    table's [add], one per iteration. *)
Definition corpus_batches {A : Type} (corpus_list : list A) (batch_size : Z)
  : result (list (list A)) :=
  let* starts := range0 (List.length corpus_list) batch_size in
  Ok (map (fun i =>
             if Nat.leb (i + Z.to_nat batch_size) (List.length corpus_list)
             then slice corpus_list i (i + Z.to_nat batch_size)
             else skipn i corpus_list)
          starts).

(** *** [_remove_punctuation] *)

(** The characters of the class in the pattern of line 181, by code:
    ! double-quote # & * + , / : ; < = > ? @ [ ] ^ _ ` { | } ~ *)
Definition punctuation_codes : list nat :=
  [33; 34; 35; 38; 42; 43; 44; 47; 58; 59; 60; 61; 62; 63; 64;
   91; 93; 94; 95; 96; 123; 124; 125; 126]%nat.

Definition is_punctuation (c : ascii) : bool :=
  existsb (Nat.eqb (nat_of_ascii c)) punctuation_codes.

(** [re.sub(pattern, '', string)] for that one-character class.  All
    characters of the class are ASCII, so reading a UTF-8 string byte by
    byte removes the same characters. *)
Fixpoint _remove_punctuation (s : string) : string :=
  match s with
  | EmptyString => EmptyString
  | String c s' =>
      if is_punctuation c then _remove_punctuation s'
      else String c (_remove_punctuation s')
  end.

(** *** [retrieve] and [rerank] *)

(** A [retriever] argument: whether its type is a subclass of [Retrieval],
    and its [retrieve] method on queries, corpus and [top_k]. *)
Record RetrievalModel : Type := mkRetrievalModel {
  is_retrieval : bool;
  retrieve_method :
    Dict.t string -> Dict.t Document -> option Z -> result RankingResult
}.

(** A [reranker] argument: whether its type is a subclass of [Reranker],
    and its [rerank] method on queries, corpus, results, [top_k] and
    [batch_size]. *)
Record RerankerModel : Type := mkRerankerModel {
  is_reranker : bool;
  rerank_method :
    Dict.t string -> Dict.t Document -> RankingResult -> Z -> option Z ->
    result RankingResult
}.

Definition set_retrieve_results (task : BaseTask) (r : RankingResult)
  : BaseTask :=
  mkBaseTask (queries task) (corpus task) (Some r) (rerank_results task)
             (generate_results task).

Definition set_rerank_results (task : BaseTask) (r : RankingResult)
  : BaseTask :=
  mkBaseTask (queries task) (corpus task) (retrieve_results task) (Some r)
             (generate_results task).

Definition retrieve (task : BaseTask) (retriever : RetrievalModel)
  (top_k : option Z) : result RankingResult * BaseTask :=
  if negb (is_retrieval retriever) then (Raise TypeError, task)
  else
    match corpus task, queries task with
    | Some c, Some q =>
        match retrieve_method retriever q c top_k with
        | Ok r => (Ok r, set_retrieve_results task r)
        | Raise e => (Raise e, task)
        end
    | _, _ => (Raise ValueError, task)
    end.

Definition rerank (task : BaseTask) (reranker : RerankerModel)
  (results : option RankingResult) (top_k : Z) (batch_size : option Z)
  : result RankingResult * BaseTask :=
  if negb (is_reranker reranker) then (Raise TypeError, task)
  else
    match corpus task, queries task with
    | Some c, Some q =>
        let input :=
          match results with
          | Some given => Ok given
          | None =>
              match retrieve_results task with
              | Some stored => Ok stored
              | None => Raise ValueError
              end
          end in
        match (let* r := input in rerank_method reranker q c r top_k batch_size)
        with
        | Ok r => (Ok r, set_rerank_results task r)
        | Raise e => (Raise e, task)
        end
    | _, _ => (Raise ValueError, task)
    end.

(** *** [save_results] *)

(** [sorted(items, key=lambda item: item[1], reverse=True)]: items with
    equal scores keep their order.  Scores are compared as Python compares
    floats; for a list with a NaN score the place of the NaN depends on the
    sorting algorithm and is outside this definition. *)
Fixpoint insert_by_score (x : string * float) (l : list (string * float))
  : list (string * float) :=
  match l with
  | [] => [x]
  | y :: l' =>
      if float_gt (snd y) (snd x) then y :: insert_by_score x l'
      else x :: y :: l'
  end.

Definition sorted_by_score (items : list (string * float))
  : list (string * float) :=
  fold_right insert_by_score [] items.

(** [l[:stop]]. *)
Definition slice_to {A : Type} (stop : Z) (l : list A) : list A :=
  if (stop <? 0)%Z then firstn (Z.to_nat (Z.of_nat (List.length l) + stop)) l
  else firstn (Z.to_nat stop) l.

Inductive OutputFile : Type :=
| results_output_jsonl
| results_csv
| output_jsonl.

(** What is written to a file: the records of the JSON lines, or the rows
    of the CSV writer. *)
Inductive FileContent : Type :=
| ScoreRecords (records : list (string * string * float))
| CsvRows (rows_ : list (list string))
| AnswerRecords (records : list (string * string)).

(** The records of [results_output.jsonl]: one per query and document. *)
Definition score_records (final : RankingResult)
  : list (string * string * float) :=
  flat_map (fun entry =>
              map (fun doc => (fst entry, fst doc, snd doc)) (snd entry))
           final.

(** The rows of [results.csv] after the header. *)
Definition csv_rows (top_k : Z) (final : RankingResult)
  : list (list string) :=
  flat_map (fun entry =>
              map (fun doc => [fst entry; fst doc])
                  (slice_to top_k (sorted_by_score (snd entry))))
           final.

(** [save_results]: the files written under the output directory, in the
    order they are written. *)
Definition save_results (task : BaseTask) (top_k : Z)
  (output_dir : option string) : list (OutputFile * FileContent) :=
  match output_dir with
  | None => []
  | Some _ =>
      (match final_result task with
       | Some final =>
           [(results_output_jsonl, ScoreRecords (score_records final));
            (results_csv,
             CsvRows (["query_id"; "corpus_id"] :: csv_rows top_k final))]
       | None => []
       end)
      ++ (match generate_results task with
          | Some generated => [(output_jsonl, AnswerRecords generated)]
          | None => []
          end)
  end.


(** The store of the keyword cache is well formed: one entry per query
    text, and no more than [maxsize] entries. *)
Definition cache_ok (c : list (string * list string)) : Prop :=
  NoDup (map fst c) /\ (List.length c <= maxsize)%nat.

(* ================================================================== *)
(** * Part II: properties *)
(* ================================================================== *)

(** ** Dictionaries and membership *)

Lemma str_in_In (x : string) (xs : list string) :
  str_in x xs = true <-> In x xs.
Proof.
  unfold str_in. rewrite existsb_exists. split.
  - intros [y [Hy Heq]]. apply String.eqb_eq in Heq. now subst.
  - intros H. exists x. split; [assumption | apply String.eqb_refl].
Qed.

Lemma str_in_not_In (x : string) (xs : list string) :
  str_in x xs = false <-> ~ In x xs.
Proof.
  rewrite <- str_in_In. destruct (str_in x xs); split; congruence.
Qed.

Lemma dict_set_keys_in {V : Type} (k k' : string) (v : V) (d : Dict.t V) :
  In k' (Dict.keys (Dict.set k v d)) <-> k' = k \/ In k' (Dict.keys d).
Proof.
  induction d as [| [k0 v0] d IH]; simpl.
  - intuition.
  - destruct (String.eqb k k0) eqn:E; simpl.
    + apply String.eqb_eq in E. subst. intuition.
    + rewrite IH. intuition.
Qed.

Lemma dict_set_keys_nodup {V : Type} (k : string) (v : V) (d : Dict.t V) :
  NoDup (Dict.keys d) -> NoDup (Dict.keys (Dict.set k v d)).
Proof.
  induction d as [| [k0 v0] d IH]; simpl; intros H.
  - constructor; [intros [] | constructor].
  - inversion H as [| ? ? Hnotin Hnd]; subst.
    destruct (String.eqb k k0) eqn:E; simpl.
    + apply String.eqb_eq in E. subst. now constructor.
    + constructor; [| now apply IH].
      fold (Dict.keys (Dict.set k v d)). rewrite dict_set_keys_in.
      intros [-> | Hin]; [| contradiction].
      now rewrite String.eqb_refl in E.
Qed.

Lemma dict_of_items_acc_nodup {V : Type} (items : list (string * V))
  (acc : Dict.t V) :
  NoDup (Dict.keys acc) ->
  NoDup (Dict.keys
           (fold_left (fun d kv => Dict.set (fst kv) (snd kv) d) items acc)).
Proof.
  revert acc. induction items as [| kv items IH]; simpl; intros acc H.
  - assumption.
  - apply IH. now apply dict_set_keys_nodup.
Qed.

Lemma dict_of_items_nodup {V : Type} (items : list (string * V)) :
  NoDup (Dict.keys (Dict.of_items items)).
Proof.
  unfold Dict.of_items. apply dict_of_items_acc_nodup. constructor.
Qed.

(** Setting a fresh key appends the binding. *)
Lemma dict_set_fresh {V : Type} (k : string) (v : V) (d : Dict.t V) :
  ~ In k (Dict.keys d) -> Dict.set k v d = d ++ [(k, v)].
Proof.
  induction d as [| [k0 v0] d IH]; simpl; intros H.
  - reflexivity.
  - destruct (String.eqb k k0) eqn:E.
    + apply String.eqb_eq in E. subst. exfalso. apply H. now left.
    + f_equal. apply IH. intros Hin. apply H. now right.
Qed.

(** With pairwise distinct keys the comprehension keeps every item, in
    order. *)
Lemma dict_of_items_acc_distinct {V : Type} (items : list (string * V))
  (acc : Dict.t V) :
  NoDup (Dict.keys acc ++ map fst items) ->
  fold_left (fun d kv => Dict.set (fst kv) (snd kv) d) items acc
  = acc ++ items.
Proof.
  revert acc. induction items as [| [k v] items IH]; simpl; intros acc H.
  - now rewrite app_nil_r.
  - rewrite dict_set_fresh.
    + rewrite IH.
      * now rewrite <- app_assoc.
      * unfold Dict.keys in *. rewrite map_app. simpl.
        now rewrite <- app_assoc.
    + apply NoDup_remove_2 in H. intros Hin. apply H.
      apply in_or_app. now left.
Qed.

Lemma dict_of_items_distinct {V : Type} (items : list (string * V)) :
  NoDup (map fst items) -> Dict.of_items items = items.
Proof.
  intros H. unfold Dict.of_items.
  now rewrite dict_of_items_acc_distinct.
Qed.

Lemma dict_get_In {V : Type} (k : string) (v : V) (d : Dict.t V) :
  Dict.get k d = Some v -> In (k, v) d.
Proof.
  induction d as [| [k0 v0] d IH]; simpl; [discriminate |].
  destruct (String.eqb k k0) eqn:E.
  - apply String.eqb_eq in E. intros [= ->]. subst. now left.
  - intros H. right. now apply IH.
Qed.

Lemma dict_set_values_Forall {V : Type} (Pv : V -> Prop) (k : string) (v : V)
  (d : Dict.t V) :
  Pv v -> Forall Pv (Dict.values d) -> Forall Pv (Dict.values (Dict.set k v d)).
Proof.
  intros Hv. induction d as [| [k0 v0] d IH]; simpl; intros H.
  - constructor; [assumption | constructor].
  - inversion H; subst. destruct (String.eqb k k0); simpl.
    + now constructor.
    + constructor; [assumption | now apply IH].
Qed.

(** ** The input of [generate] *)

(** C1 (the code departs from it): with the [results] argument omitted,
    [generate] is documented to run on the reranked results when there are
    some and on the retrieved ones otherwise.  The conditional of lines
    476-480 does the opposite of the choice [save_results] makes: it takes
    the retrieved results exactly when reranked results exist, and with
    retrieved results alone it fails the assertion. *)
Theorem generation_input_inverted :
  forall q c g (retrieved reranked : RankingResult),
    let both := mkBaseTask q c (Some retrieved) (Some reranked) g in
    let only_retrieved := mkBaseTask q c (Some retrieved) None g in
    let only_reranked := mkBaseTask q c None (Some reranked) g in
    generation_input both None = Ok retrieved
    /\ final_result both = Some reranked
    /\ generation_input only_retrieved None = Raise AssertionError
    /\ final_result only_retrieved = Some retrieved
    /\ generation_input only_reranked None = Raise AssertionError.
Proof.
  intros. repeat split; reflexivity.
Qed.

(** With reranked results stored, leaving [results] out is the same as
    passing the retrieved results. *)
Lemma generate_defaults_to_retrieved :
  forall (task : BaseTask) (model : GeneratorModel)
         (prepare_messages : option PrepareMessages)
         (reranked : RankingResult),
    rerank_results task = Some reranked ->
    generate task model None prepare_messages
    = generate task model (retrieve_results task) prepare_messages.
Proof.
  intros task model prepare_messages reranked Hrerank.
  unfold generate, generation_input. rewrite Hrerank.
  destruct (retrieve_results task); reflexivity.
Qed.

(** ** Self-match removal in [evaluate] *)

Lemma dict_pop_cons_other {V : Type} (k k0 : string) (v0 : V) (d : Dict.t V) :
  String.eqb k k0 = false -> Dict.pop k ((k0, v0) :: d) = (k0, v0) :: Dict.pop k d.
Proof.
  intros E. simpl. now rewrite E.
Qed.

(** Popping [qid] once for each of its occurrences among [ks]. *)
Lemma pop_identical_fold (qid : string) (ks : list string)
  (d : Dict.t float) :
  fold_left
    (fun current pid =>
       if String.eqb qid pid then Dict.pop pid current else current) ks d
  = Nat.iter (count_occ string_dec ks qid) (Dict.pop qid) d.
Proof.
  revert d. induction ks as [| k ks IH]; intros d; simpl.
  - reflexivity.
  - destruct (String.eqb qid k) eqn:E.
    + apply String.eqb_eq in E. subst k.
      destruct (string_dec qid qid) as [_ | n]; [| contradiction].
      rewrite IH. now rewrite Nat.iter_succ_r.
    + destruct (string_dec k qid) as [-> | _].
      * now rewrite String.eqb_refl in E.
      * apply IH.
Qed.

Lemma pop_iter_cons_other (n : nat) (qid k0 : string) (v0 : float)
  (d : Dict.t float) :
  String.eqb qid k0 = false ->
  Nat.iter n (Dict.pop qid) ((k0, v0) :: d)
  = (k0, v0) :: Nat.iter n (Dict.pop qid) d.
Proof.
  intros E. induction n as [| n IH]; simpl.
  - reflexivity.
  - rewrite IH. now apply dict_pop_cons_other.
Qed.

Lemma pop_iter_cons_same (n : nat) (qid : string) (v0 : float)
  (d : Dict.t float) :
  Dict.pop qid (Nat.iter n (Dict.pop qid) ((qid, v0) :: d))
  = Nat.iter n (Dict.pop qid) d.
Proof.
  induction n as [| n IH]; simpl.
  - now rewrite String.eqb_refl.
  - now rewrite IH.
Qed.

Lemma pop_identical_filter (qid : string) (rels : Dict.t float) :
  pop_identical qid rels
  = filter (fun binding => negb (String.eqb qid (fst binding))) rels.
Proof.
  unfold pop_identical. rewrite pop_identical_fold.
  induction rels as [| [k0 v0] rels IH]; simpl.
  - reflexivity.
  - destruct (string_dec k0 qid) as [-> | Hne].
    + rewrite String.eqb_refl. simpl.
      rewrite pop_iter_cons_same. exact IH.
    + assert (E : String.eqb qid k0 = false).
      { apply String.eqb_neq. congruence. }
      rewrite E. simpl. rewrite pop_iter_cons_other by assumption.
      f_equal. exact IH.
Qed.

Lemma map_fixed_point {A : Type} (f : A -> A) (l : list A) :
  map f l = l -> forall x, In x l -> f x = x.
Proof.
  induction l as [| a l IH]; simpl; intros H x Hin.
  - contradiction.
  - injection H as Ha Hl. destruct Hin as [-> | Hin]; auto.
Qed.

(** C10: with [ignore_identical_ids] set, [evaluate] changes the [results]
    object it is given.  After the call every query's mapping has lost the
    entries whose document id is the query id, so a mapping that held such
    an entry is no longer the one the caller passed in. *)
Theorem evaluate_mutates_results :
  forall (A : Arith) (pt : TrecEval A) (qrels : Qrels)
         (results : RankingResult) (k_values : list Z) (qid : string)
         (rels : Dict.t float),
    In (qid, rels) results ->
    In qid (Dict.keys rels) ->
    let after := fst (evaluate pt qrels results k_values true) in
    after <> results
    /\ after
       = map (fun entry =>
                (fst entry,
                 filter (fun binding =>
                           negb (String.eqb (fst entry) (fst binding)))
                        (snd entry)))
             results
    /\ (forall rels', In (qid, rels') after -> ~ In qid (Dict.keys rels')).
Proof.
  intros A pt qrels results k_values qid rels Hin Hkey after.
  assert (Hafter :
    after
    = map (fun entry =>
             (fst entry,
              filter (fun binding =>
                        negb (String.eqb (fst entry) (fst binding)))
                     (snd entry)))
          results).
  { unfold after, evaluate. simpl. unfold remove_identical.
    apply map_ext. intros [q r]. simpl. now rewrite pop_identical_filter. }
  clearbody after.
  assert (Hgone : forall rels', In (qid, rels') after ->
                                ~ In qid (Dict.keys rels')).
  { intros rels' Hin'. rewrite Hafter in Hin'.
    apply in_map_iff in Hin'. destruct Hin' as [[q r] [Heq _]].
    simpl in Heq. injection Heq as -> <-.
    unfold Dict.keys. rewrite in_map_iff. intros [[k v] [Hk Hf]].
    simpl in Hk. subst k. apply filter_In in Hf. destruct Hf as [_ Hf].
    simpl in Hf. now rewrite String.eqb_refl in Hf. }
  split; [| split; assumption].
  intros Heq. apply (Hgone rels); [| assumption].
  now rewrite Heq.
Qed.

(** The witness of C10: a ranking that lists the query itself. *)
Lemma evaluate_mutates_results_witness :
  fst (evaluate (A := exact_arith) (fun _ _ => None) []
         [("q1", [("q1", Some 1); ("d1", Some (1 # 2))])] [10%Z] true)
  <> [("q1", [("q1", Some 1); ("d1", Some (1 # 2))])].
Proof.
  apply (evaluate_mutates_results exact_arith (fun _ _ => None) []
           [("q1", [("q1", Some 1); ("d1", Some (1 # 2))])] [10%Z]
           "q1" [("q1", Some 1); ("d1", Some (1 # 2))]).
  - simpl. left. reflexivity.
  - simpl. left. reflexivity.
Defined.

(** ** Metric dictionaries *)

Lemma dict_get_set {V : Type} (k k' : string) (v : V) (d : Dict.t V) :
  Dict.get k (Dict.set k' v d)
  = if String.eqb k k' then Some v else Dict.get k d.
Proof.
  induction d as [| [k0 v0] d IH]; simpl.
  - reflexivity.
  - destruct (String.eqb k' k0) eqn:E; simpl.
    + apply String.eqb_eq in E. subst k0.
      destruct (String.eqb k k'); reflexivity.
    + rewrite IH. destruct (String.eqb k k0) eqn:E0; [| reflexivity].
      apply String.eqb_eq in E0. subst k0.
      now rewrite String.eqb_sym, E.
Qed.





(** *** Initialisation *)

Lemma init_fold_field {A : Arith} (meas : measure) (ks : list Z) (m : Metrics A) :
  field meas
    (fold_left
       (fun m k =>
          mkMetrics (Dict.set (ndcg_key k) (fzero A) (ndcg m))
                    (Dict.set (map_key k) (fzero A) (_map m))
                    (Dict.set (recall_key k) (fzero A) (recall m))
                    (Dict.set (precision_key k) (fzero A) (precision m)))
       ks m)
  = fold_left (fun d k => Dict.set (key meas k) (fzero A) d) ks (field meas m).
Proof.
  revert m. induction ks as [| k ks IH]; intros m; simpl.
  - reflexivity.
  - rewrite IH. destruct meas; reflexivity.
Qed.

Lemma init_metrics_field {A : Arith} (meas : measure) (k_values : list Z) :
  field meas (init_metrics k_values)
  = fold_left (fun d k => Dict.set (key meas k) (fzero A) d) k_values [].
Proof.
  unfold init_metrics. rewrite init_fold_field. destruct meas; reflexivity.
Qed.

Lemma init_fold_get {A : Arith} (mk : Z -> string) (ks : list Z) (d : Dict.t (num A))
  (label : string) :
  Dict.get label (fold_left (fun d k => Dict.set (mk k) (fzero A) d) ks d)
  = if str_in label (map mk ks) then Some (fzero A) else Dict.get label d.
Proof.
  revert d. induction ks as [| k ks IH]; intros d; simpl.
  - reflexivity.
  - rewrite IH, dict_get_set.
    destruct (String.eqb label (mk k)); simpl.
    + now destruct (str_in label (map mk ks)).
    + reflexivity.
Qed.

Lemma init_metrics_get {A : Arith} (meas : measure) (ks : list Z) (k : Z) :
  In k ks -> Dict.get (key meas k) (field meas (init_metrics ks)) = Some (fzero A).
Proof.
  intros H. rewrite init_metrics_field, init_fold_get.
  replace (str_in _ _) with true; [reflexivity |].
  symmetry. apply str_in_In. now apply in_map.
Qed.

(** *** Accumulation *)

Lemma bump_get {A : Arith} (label label' : string) (x : num A) (d : Dict.t (num A)) :
  Dict.get label (bump label' x d)
  = if String.eqb label label'
    then option_map (fun y => fadd A y x) (Dict.get label' d)
    else Dict.get label d.
Proof.
  unfold bump. destruct (Dict.get label' d) as [y |] eqn:E.
  - rewrite dict_get_set. now destruct (String.eqb label label').
  - destruct (String.eqb label label') eqn:E'; [| reflexivity].
    apply String.eqb_eq in E'. subst. now rewrite E.
Qed.

Lemma rescale_get {A : Arith} (label label' : string) (n : nat) (d : Dict.t (num A)) :
  Dict.get label (rescale label' n d)
  = if String.eqb label label'
    then option_map (fun y => fround A (fdiv A y n))
                    (Dict.get label' d)
    else Dict.get label d.
Proof.
  unfold rescale. destruct (Dict.get label' d) as [y |] eqn:E.
  - rewrite dict_get_set. now destruct (String.eqb label label').
  - destruct (String.eqb label label') eqn:E'; [| reflexivity].
    apply String.eqb_eq in E'. subst. now rewrite E.
Qed.

Lemma add_to_bump {A : Arith} (label : string) (x : num A) (d : Dict.t (num A)) :
  Dict.get label d <> None -> add_to label x d = Ok (bump label x d).
Proof.
  unfold add_to, bump. destruct (Dict.get label d); [reflexivity | congruence].
Qed.

Lemma bump_keeps_label {A : Arith} (label label' : string) (x : num A) (d : Dict.t (num A)) :
  Dict.get label d <> None -> Dict.get label (bump label' x d) <> None.
Proof.
  rewrite bump_get. destruct (String.eqb label label') eqn:E; [| auto].
  apply String.eqb_eq in E. subst. now destruct (Dict.get label' d).
Qed.

Lemma rescale_keeps_label {A : Arith} (label label' : string) (n : nat) (d : Dict.t (num A)) :
  Dict.get label d <> None -> Dict.get label (rescale label' n d) <> None.
Proof.
  rewrite rescale_get. destruct (String.eqb label label') eqn:E; [| auto].
  apply String.eqb_eq in E. subst. now destruct (Dict.get label' d).
Qed.

Lemma fold_left_raise {A B : Type} (f : result A -> B -> result A)
  (l : list B) (e : exn) :
  (forall e' b, f (Raise e') b = Raise e') ->
  fold_left f l (Raise e) = Raise e.
Proof.
  intros Hf. induction l as [| b l IH]; simpl.
  - reflexivity.
  - now rewrite Hf.
Qed.

Lemma labelled_tail {A : Arith} (k : Z) (ks : list Z) (m : Metrics A) :
  labelled (k :: ks) m -> labelled ks m.
Proof.
  intros H meas k' Hin. apply H. now right.
Qed.

Lemma add_query_ok {A : Arith} (sc : measure -> Z -> num A) (ks : list Z) (m : Metrics A) :
  labelled ks m ->
  exists m',
    add_query sc ks m = Ok m'
    /\ forall meas,
         field meas m'
         = fold_left (fun d k => bump (key meas k) (sc meas k) d) ks
                     (field meas m).
Proof.
  revert m. induction ks as [| k ks IH]; intros m Hlab.
  - exists m. split; reflexivity.
  - unfold add_query. simpl.
    rewrite (add_to_bump (ndcg_key k)) by (apply (Hlab ndcg_cut k); now left).
    rewrite (add_to_bump (map_key k)) by (apply (Hlab map_cut k); now left).
    rewrite (add_to_bump (recall_key k)) by (apply (Hlab recall_ k); now left).
    rewrite (add_to_bump (precision_key k)) by (apply (Hlab P_ k); now left).
    simpl.
    destruct (IH (mkMetrics (bump (ndcg_key k) (sc ndcg_cut k) (ndcg m))
                            (bump (map_key k) (sc map_cut k) (_map m))
                            (bump (recall_key k) (sc recall_ k) (recall m))
                            (bump (precision_key k) (sc P_ k) (precision m))))
      as [m' [Hrun Hfield]].
    + intros meas k' Hin.
      pose proof (Hlab meas k' (or_intror Hin)) as Hk.
      destruct meas; simpl in *; now apply bump_keeps_label.
    + exists m'. split; [exact Hrun |].
      intros meas. rewrite Hfield. destruct meas; reflexivity.
Qed.

Lemma bump_fold_keeps_label {A : Arith} (meas : measure) (f : Z -> num A) (ks : list Z)
  (d : Dict.t (num A)) (label : string) :
  Dict.get label d <> None ->
  Dict.get label (fold_left (fun d k => bump (key meas k) (f k) d) ks d)
  <> None.
Proof.
  revert d. induction ks as [| k ks IH]; intros d H; simpl.
  - assumption.
  - apply IH. now apply bump_keeps_label.
Qed.

Lemma aggregate_ok {A : Arith} (scores : Dict.t (measure -> Z -> num A)) (ks : list Z)
  (m : Metrics A) :
  labelled ks m ->
  exists m',
    aggregate scores ks m = Ok m'
    /\ forall meas,
         field meas m'
         = fold_left
             (fun d entry =>
                fold_left (fun d k => bump (key meas k) (snd entry meas k) d)
                          ks d)
             scores (field meas m).
Proof.
  revert m. induction scores as [| [qid sc] scores IH]; intros m Hlab.
  - exists m. split; reflexivity.
  - unfold aggregate. simpl.
    destruct (add_query_ok sc ks m Hlab) as [m1 [Hrun1 Hfield1]].
    rewrite Hrun1.
    destruct (IH m1) as [m' [Hrun Hfield]].
    + intros meas k Hin. rewrite Hfield1.
      apply bump_fold_keeps_label. now apply Hlab.
    + exists m'. split; [exact Hrun |].
      intros meas. now rewrite Hfield, Hfield1.
Qed.

Lemma average_ok {A : Arith} (n : nat) (ks : list Z) (m : Metrics A) :
  labelled ks m ->
  exists m',
    average (S n) ks m = Ok m'
    /\ forall meas,
         field meas m'
         = fold_left (fun d k => rescale (key meas k) (S n) d) ks
                     (field meas m).
Proof.
  revert m. induction ks as [| k ks IH]; intros m Hlab.
  - exists m. split; reflexivity.
  - unfold average. simpl. unfold average_at.
    pose proof (Hlab ndcg_cut k (or_introl eq_refl)) as H1.
    pose proof (Hlab map_cut k (or_introl eq_refl)) as H2.
    pose proof (Hlab recall_ k (or_introl eq_refl)) as H3.
    pose proof (Hlab P_ k (or_introl eq_refl)) as H4.
    simpl in H1, H2, H3, H4.
    destruct (Dict.get (ndcg_key k) (ndcg m)) as [y1 |] eqn:E1;
      [| congruence].
    destruct (Dict.get (map_key k) (_map m)) as [y2 |] eqn:E2;
      [| congruence].
    destruct (Dict.get (recall_key k) (recall m)) as [y3 |] eqn:E3;
      [| congruence].
    destruct (Dict.get (precision_key k) (precision m)) as [y4 |] eqn:E4;
      [| congruence].
    simpl.
    match goal with
    | |- exists m', fold_left _ _ (Ok ?m1) = _ /\ _ =>
        destruct (IH m1) as [m' [Hrun Hfield]]
    end.
    + intros meas k' Hin.
      pose proof (Hlab meas k' (or_intror Hin)) as Hk.
      destruct meas; simpl in *; rewrite dict_get_set;
        match goal with
        | |- context [String.eqb ?a ?b] => destruct (String.eqb a b)
        end; congruence.
    + exists m'. split; [exact Hrun |].
      intros meas. rewrite Hfield.
      destruct meas; simpl; unfold rescale;
        [rewrite E1 | rewrite E2 | rewrite E3 | rewrite E4]; reflexivity.
Qed.

(** *** The value under one label *)

Section OneLabel.

Context {A : Arith}.
Variable meas : measure.
Variable g : Z -> num A -> num A.
Variable upd : Z -> Dict.t (num A) -> Dict.t (num A).

Hypothesis upd_get :
  forall label k d,
    Dict.get label (upd k d)
    = if String.eqb label (key meas k)
      then option_map (g k) (Dict.get (key meas k) d)
      else Dict.get label d.



End OneLabel.


Lemma dict_mem_keys {V : Type} (k : string) (d : Dict.t V) :
  Dict.mem k d = str_in k (Dict.keys d).
Proof.
  unfold Dict.mem. induction d as [| [k0 v0] d IH]; simpl.
  - reflexivity.
  - destruct (String.eqb k k0); [reflexivity | exact IH].
Qed.

(** The scores pytrec_eval returns for the filtered run, query by query. *)
Lemma trec_scores_filtered {A : Arith} (pt : TrecEval A) (qrels : Qrels)
  (run : RankingResult) :
  trec_scores pt qrels (filter_results qrels run)
  = flat_map
      (fun entry =>
         match pt (judged qrels (fst entry)) (snd entry) with
         | Some sc => [(fst entry, sc)]
         | None => []
         end)
      (scored_queries qrels run).
Proof.
  unfold trec_scores, filter_results, scored_queries, judged.
  induction run as [| [qid rels] run IH]; simpl.
  - reflexivity.
  - rewrite <- dict_mem_keys. unfold Dict.mem.
    destruct (Dict.get qid qrels) as [j |] eqn:E; simpl.
    + rewrite E. f_equal. exact IH.
    + exact IH.
Qed.

(** Their values at a measure and a cutoff are the scores of the evaluated
    queries, in the order of the run. *)
Lemma trec_scores_values {A : Arith} (pt : TrecEval A) (qrels : Qrels)
  (run : RankingResult) (meas : measure) (k : Z) :
  map (fun entry => snd entry meas k)
      (trec_scores pt qrels (filter_results qrels run))
  = map (query_score pt qrels meas k) (evaluated pt qrels run).
Proof.
  rewrite trec_scores_filtered. unfold evaluated.
  induction (scored_queries qrels run) as [| entry l IH]; simpl.
  - reflexivity.
  - unfold is_scored at 1.
    destruct (pt (judged qrels (fst entry)) (snd entry)) as [sc |] eqn:E;
      simpl.
    + unfold query_score at 1. rewrite E. f_equal. exact IH.
    + exact IH.
Qed.

Lemma trec_scores_length {A : Arith} (pt : TrecEval A) (qrels : Qrels)
  (run : RankingResult) :
  List.length (trec_scores pt qrels (filter_results qrels run))
  = List.length (evaluated pt qrels run).
Proof.
  rewrite <- (length_map (fun entry => snd entry ndcg_cut 0%Z)).
  rewrite trec_scores_values. apply length_map.
Qed.

(** ** An empty evaluation set *)

Lemma average_at_zero {A : Arith} (label : string) (d : Dict.t (num A)) :
  Dict.get label d <> None -> average_at label 0 d = Raise ZeroDivisionError.
Proof.
  unfold average_at. destruct (Dict.get label d); [reflexivity | congruence].
Qed.

(** C4 (as amended): [evaluate] has no check of its own for an empty set of
    scored queries.  When no query of [results] has judgments and at least
    one cutoff is asked for, the call fails in the averaging itself, with
    the [ZeroDivisionError] of the division by [len(scores)]. *)
Theorem evaluate_empty_set_zero_division :
  forall (A : Arith) (pt : TrecEval A) (qrels : Qrels)
         (results : RankingResult) (k_values : list Z)
         (ignore_identical_ids : bool),
    k_values <> [] ->
    scored_queries qrels
      (fst (evaluate pt qrels results k_values ignore_identical_ids)) = [] ->
    snd (evaluate pt qrels results k_values ignore_identical_ids)
    = Raise ZeroDivisionError.
Proof.
  intros A pt qrels results k_values ignore Hks Hnone.
  unfold evaluate in *. cbn [fst snd] in *.
  rewrite trec_scores_filtered, Hnone.
  destruct k_values as [| k ks]; [congruence |].
  pose proof (init_metrics_get (A := A) ndcg_cut (k :: ks) k
                (or_introl eq_refl)) as Hlabel.
  cbn [key field] in Hlabel.
  cbn [flat_map List.length aggregate fold_left bind].
  unfold average. cbn [fold_left bind].
  rewrite (average_at_zero (ndcg_key k) (ndcg (init_metrics (k :: ks))))
    by congruence.
  cbn [bind]. apply fold_left_raise. reflexivity.
Qed.

(** The witness of C4: nothing to score and one cutoff. *)
Lemma evaluate_empty_set_zero_division_witness :
  snd (evaluate (A := exact_arith) (fun _ _ => Some (fun _ _ => 1)) []
         [("q1", [("d1", Some 1)])] [10%Z] true)
  = Raise ZeroDivisionError.
Proof.
  apply evaluate_empty_set_zero_division.
  - discriminate.
  - reflexivity.
Defined.

(** The counterexample of C4: with empty judgments and empty results the
    call reaches the division and raises its [ZeroDivisionError]; no
    separate error is raised before it. *)
Lemma evaluate_empty_set_counterexample :
  evaluate (A := exact_arith) (fun _ _ => Some (fun _ _ => 1)) [] []
    [10%Z] true
  = ([], Raise ZeroDivisionError)
  /\ average_at (A := exact_arith) (ndcg_key 10) 0
       (ndcg (init_metrics [10%Z]))
     = Raise ZeroDivisionError.
Proof.
  split; reflexivity.
Qed.

(** ** The averages of [evaluate] *)






(** The counterexample of C8: the cutoff 10 given twice.  The only
    evaluated query scores 1, so the mean is 1, and the value returned for
    the cutoff is 2. *)
Lemma repeated_cutoff_counterexample :
  snd (evaluate (A := exact_arith)
         (fun judgments _ =>
            match judgments with
            | [] => None
            | _ :: _ => Some (fun _ _ => 1)
            end)
         [("q1", [("d1", 1%Z)])] [("q1", [("d1", Some 1)])]
         [10%Z; 10%Z] true)
  = Ok (mkMetrics (A := exact_arith)
          [("NDCG@10", 200000 # 100000)] [("MAP@10", 200000 # 100000)]
          [("Recall@10", 200000 # 100000)] [("P@10", 200000 # 100000)])
  /\ fround exact_arith (mean (A := exact_arith) [1]) == 1
  /\ ~ (200000 # 100000 == 1).
Proof.
  split; [vm_compute; reflexivity |].
  split; [vm_compute; reflexivity |].
  intros H. vm_compute in H. discriminate.
Qed.

(** ** The query subset of [hybrid_retrieve_rerank] *)

Lemma filter_none {A : Type} (f : A -> bool) (l : list A) :
  (forall x, In x l -> f x = false) -> filter f l = [].
Proof.
  induction l as [| a l IH]; simpl; intros H.
  - reflexivity.
  - rewrite (H a (or_introl eq_refl)). apply IH. intros x Hx. apply H.
    now right.
Qed.

Lemma hybrid_loop_subset (sv : Services) (top_k : Z) (id : string)
  (ids : list string) (items : list (string * string))
  (results : RankingResult) (w : World) :
  hybrid_loop sv top_k (Some (id :: ids)) items results w
  = hybrid_loop sv top_k None
      (filter (fun entry => str_in (fst entry) (id :: ids)) items) results w.
Proof.
  revert results w.
  induction items as [| [q_id query] items IH]; intros results w.
  - reflexivity.
  - cbn [filter fst hybrid_loop skipped].
    destruct (str_in q_id (id :: ids)) eqn:E; cbn [negb].
    + cbn [hybrid_loop skipped].
      destruct (fts_stage sv w query top_k) as [retrieved_docs_1 w1].
      destruct (dense_stage sv w1 query top_k) as [[retrieved_docs |] w2].
      * destruct (finalize (combine retrieved_docs_1 retrieved_docs));
          [apply IH | reflexivity].
      * apply IH.
    + apply IH.
Qed.

(** C6 (as amended): a non-empty [query_ids] restricts the run to its
    members.  The call returns the results and leaves the cache and the log
    of service calls exactly as the call without [query_ids] on the loaded
    queries that belong to the subset does, so a query outside the subset
    gets no entry and no service call; when no loaded query belongs to the
    subset the result is empty and nothing is called. *)
Theorem query_ids_selects :
  forall (sv : Services) (queries : Dict.t string) (w : World) (top_k : Z)
         (query_ids : list string),
    query_ids <> [] ->
    hybrid_retrieve_rerank sv queries w top_k (Some query_ids)
    = hybrid_retrieve_rerank sv
        (filter (fun entry => str_in (fst entry) query_ids) queries)
        w top_k None
    /\ ((forall q_id, In q_id (Dict.keys queries) -> ~ In q_id query_ids) ->
        hybrid_retrieve_rerank sv queries w top_k (Some query_ids)
        = (Ok [], w)).
Proof.
  intros sv queries w top_k [| id ids] Hne; [congruence |].
  unfold hybrid_retrieve_rerank. rewrite hybrid_loop_subset.
  split; [reflexivity |].
  intros Hdisjoint.
  replace (filter (fun entry => str_in (fst entry) (id :: ids)) queries)
    with (@nil (string * string)); [reflexivity |].
  symmetry. apply filter_none. intros [q_id query] Hin. cbn [fst].
  apply str_in_not_In, Hdisjoint.
  unfold Dict.keys. now apply (in_map fst) in Hin.
Qed.

(** The witness of C6: a subset naming the second of two queries. *)
Lemma query_ids_selects_witness :
  hybrid_retrieve_rerank (mkServices (fun _ _ => None) (fun _ _ _ _ => None))
    [("q1", "first"); ("q2", "second")] initial_world 10 (Some ["q2"])
  = hybrid_retrieve_rerank (mkServices (fun _ _ => None) (fun _ _ _ _ => None))
      [("q2", "second")] initial_world 10 None.
Proof.
  apply (proj1 (query_ids_selects
                  (mkServices (fun _ _ => None) (fun _ _ _ _ => None))
                  [("q1", "first"); ("q2", "second")] initial_world 10 ["q2"]
                  ltac:(discriminate))).
Defined.

(** The counterexample of C6: with the empty subset, which holds no query
    id at all, the only loaded query is still processed: it gets an entry
    and all three services are called for it. *)
Lemma query_ids_empty_counterexample :
  hybrid_retrieve_rerank (mkServices (fun _ _ => None) (fun _ _ _ _ => None))
    [("q1", "first")] initial_world 10 (Some [])
  = (Ok [("q1", [])],
     mkWorld [Search vector "first" 10; Search hybrid "first" 10;
              ChatCompletion "first"] []).
Proof.
  reflexivity.
Qed.

(** ** The limit [top_k] *)















(** ** The keyword cache *)

Lemma keyword_cache_after (sv : Services) (w : World) (query : string) :
  kw_cache (snd (keyword_extraction_expansion sv w query))
  = match cache_find query (kw_cache w) with
    | Some keywords => cache_touch query keywords (kw_cache w)
    | None =>
        match chat sv (calls w) query with
        | Some response =>
            cache_store query (split ", " response) (kw_cache w)
        | None => kw_cache w
        end
    end.
Proof.
  unfold keyword_extraction_expansion, keyword_extraction_expansion_body.
  destruct (cache_find query (kw_cache w)); [reflexivity |].
  destruct (chat sv (calls w) query); reflexivity.
Qed.

Lemma cache_remove_other (k k' : string) (c : list (string * list string)) :
  k <> k' ->
  cache_find k (cache_remove k' c) = cache_find k c
  /\ forall i, cache_rank k c = Some i ->
               exists i', cache_rank k (cache_remove k' c) = Some i'
                          /\ (i' <= i)%nat.
Proof.
  intros Hne. induction c as [| [k0 v0] c [IHf IHr]]; simpl.
  - split; [reflexivity | discriminate].
  - destruct (String.eqb k' k0) eqn:E'.
    + apply String.eqb_eq in E'. subst k0.
      assert (E : String.eqb k k' = false) by now apply String.eqb_neq.
      rewrite E. split; [reflexivity |].
      intros i Hi. destruct (cache_rank k c) as [i0 |]; [| discriminate].
      simpl in Hi. injection Hi as <-. exists i0. split; [reflexivity | lia].
    + simpl. destruct (String.eqb k k0).
      * split; [reflexivity |]. intros i [= <-]. exists O. split; [reflexivity | lia].
      * split; [exact IHf |]. intros i Hi.
        destruct (cache_rank k c) as [i0 |]; [| discriminate].
        simpl in Hi. injection Hi as <-.
        destruct (IHr i0 eq_refl) as [i' [Hi' Hle]].
        rewrite Hi'. exists (S i'). split; [reflexivity | lia].
Qed.

Lemma cache_removelast_keeps (k : string) (c : list (string * list string))
  (i : nat) :
  cache_rank k c = Some i -> (S i < List.length c)%nat ->
  cache_find k (removelast c) = cache_find k c
  /\ cache_rank k (removelast c) = Some i.
Proof.
  revert i. induction c as [| [k0 v0] c IH]; intros i Hi Hlen.
  - discriminate.
  - assert (Hlast : removelast ((k0, v0) :: c) = (k0, v0) :: removelast c).
    { destruct c; [simpl in Hlen; lia | reflexivity]. }
    rewrite Hlast. simpl in *.
    destruct (String.eqb k k0).
    + split; [reflexivity | assumption].
    + destruct (cache_rank k c) as [i0 |] eqn:E0; [| discriminate].
      simpl in Hi. injection Hi as <-.
      destruct (IH i0 eq_refl) as [Hf Hr]; [lia |].
      rewrite Hf, Hr. split; reflexivity.
Qed.

(** One more call, for any query, moves a cached entry at most one place
    towards the least recently used end, and not out of the cache as long
    as the entry is not the last of a full cache. *)
Lemma cached_within_step (sv : Services) (w : World) (j : nat)
  (query other : string) (keywords : list string) :
  cached_within j query keywords (kw_cache w) ->
  (S j < maxsize)%nat ->
  cached_within (S j) query keywords
    (kw_cache (snd (keyword_extraction_expansion sv w other))).
Proof.
  intros [Hfind [i [Hrank Hle]]] Hroom.
  rewrite keyword_cache_after.
  destruct (String.eqb query other) eqn:E.
  - apply String.eqb_eq in E. subst other. rewrite Hfind.
    unfold cached_within, cache_touch. simpl. rewrite String.eqb_refl.
    split; [reflexivity |]. exists O. split; [reflexivity | lia].
  - assert (Hne : query <> other) by now apply String.eqb_neq.
    destruct (cache_find other (kw_cache w)) as [v' |].
    + destruct (cache_remove_other query other (kw_cache w) Hne)
        as [Hf Hr].
      destruct (Hr i Hrank) as [i' [Hi' Hle']].
      unfold cached_within, cache_touch. simpl. rewrite E, Hf, Hi'.
      split; [assumption |]. exists (S i'). split; [reflexivity | lia].
    + destruct (chat sv (calls w) other) as [response |].
      * unfold cached_within, cache_store.
        destruct (Nat.leb maxsize (List.length (kw_cache w))) eqn:Efull.
        -- apply Nat.leb_le in Efull.
           destruct (cache_removelast_keeps query (kw_cache w) i Hrank)
             as [Hf Hr]; [lia |].
           simpl. rewrite E, Hf, Hr.
           split; [assumption |]. exists (S i). split; [reflexivity | lia].
        -- simpl. rewrite E, Hrank.
           split; [assumption |]. exists (S i). split; [reflexivity | lia].
      * split; [assumption |]. exists i. split; [assumption | lia].
Qed.

Lemma cached_within_expand_all (sv : Services) (others : list string)
  (w : World) (j : nat) (query : string) (keywords : list string) :
  cached_within j query keywords (kw_cache w) ->
  (j + List.length others < maxsize)%nat ->
  cached_within (j + List.length others) query keywords
    (kw_cache (expand_all sv w others)).
Proof.
  revert w j. induction others as [| other others IH]; intros w j Hc Hroom.
  - simpl. now rewrite Nat.add_0_r.
  - simpl in *. replace (j + S (List.length others))%nat
      with (S j + List.length others)%nat by lia.
    apply IH; [| lia].
    apply cached_within_step; [assumption | lia].
Qed.

Lemma cached_after_success (sv : Services) (w w1 : World) (query : string)
  (keywords : list string) :
  keyword_extraction_expansion sv w query = (Ok keywords, w1) ->
  cached_within 0 query keywords (kw_cache w1).
Proof.
  unfold keyword_extraction_expansion, keyword_extraction_expansion_body.
  destruct (cache_find query (kw_cache w)) as [v |].
  - intros [= <- <-]. unfold cached_within, cache_touch. simpl.
    rewrite String.eqb_refl. split; [reflexivity |].
    exists O. split; [reflexivity | lia].
  - destruct (chat sv (calls w) query) as [response |]; [| discriminate].
    intros [= <- <-]. unfold cached_within, cache_store. cbn [kw_cache].
    destruct (Nat.leb maxsize (List.length (kw_cache w)));
      cbn [cache_find cache_rank];
      rewrite String.eqb_refl; (split; [reflexivity |]);
      exists O; (split; [reflexivity | lia]).
Qed.

(** C9: a repeated keyword expansion is served from the cache.  Once a call
    for a query text has returned its keywords, a later call for the same
    text, with fewer than [maxsize] = 1000 calls of the method in between,
    returns the same list and makes no call to the chat completion client:
    the log of service calls is as it was before the call. *)
Theorem keyword_expansion_memoised :
  forall (sv : Services) (w w1 : World) (query : string)
         (keywords : list string) (others : list string),
    keyword_extraction_expansion sv w query = (Ok keywords, w1) ->
    (List.length others < maxsize)%nat ->
    let w2 := expand_all sv w1 others in
    fst (keyword_extraction_expansion sv w2 query) = Ok keywords
    /\ calls (snd (keyword_extraction_expansion sv w2 query)) = calls w2.
Proof.
  intros sv w w1 query keywords others Hfirst Hfew w2.
  pose proof (cached_after_success sv w w1 query keywords Hfirst) as H0.
  pose proof (cached_within_expand_all sv others w1 0 query keywords H0 Hfew)
    as [Hfind _].
  fold w2 in Hfind.
  unfold keyword_extraction_expansion. rewrite Hfind. split; reflexivity.
Qed.

(** The witness of C9: the same query twice, another query in between. *)
Lemma keyword_expansion_memoised_witness :
  let sv := mkServices (fun log _ =>
                          match log with
                          | [] => Some "revenue, income"
                          | _ :: _ => Some "other, words"
                          end)
                       (fun _ _ _ _ => None) in
  let w1 := snd (keyword_extraction_expansion sv initial_world "sales") in
  let w2 := expand_all sv w1 ["costs"] in
  fst (keyword_extraction_expansion sv w2 "sales") = Ok ["revenue"; "income"]
  /\ calls (snd (keyword_extraction_expansion sv w2 "sales")) = calls w2.
Proof.
  intros sv w1 w2.
  apply (keyword_expansion_memoised sv initial_world w1 "sales"
           ["revenue"; "income"] ["costs"]).
  - reflexivity.
  - unfold maxsize. cbn [List.length]. lia.
Defined.

(** ** Fusion: concatenation and deduplication *)

Lemma index_of_nth (c : string) (cols : list string) (i : nat) :
  index_of c cols = Some i ->
  forall (f : string -> float), nth i (map f cols) nan = f c.
Proof.
  revert i. induction cols as [| c0 cols IH]; intros i H f; simpl in *.
  - discriminate.
  - destruct (String.eqb c c0) eqn:E.
    + apply String.eqb_eq in E. subst c0. now injection H as <-.
    + destruct (index_of c cols) as [i0 |]; [| discriminate].
      simpl in H. injection H as <-. now apply IH.
Qed.

Lemma index_of_none (c : string) (cols : list string) :
  index_of c cols = None <-> ~ In c cols.
Proof.
  induction cols as [| c0 cols IH]; simpl.
  - split; [intros _ [] | reflexivity].
  - destruct (String.eqb c c0) eqn:E.
    + apply String.eqb_eq in E. subst c0.
      split; [discriminate | intros H; exfalso; apply H; now left].
    + apply String.eqb_neq in E.
      destruct (index_of c cols) as [i |]; simpl.
      * split; [discriminate |]. intros H. exfalso. apply H. right.
        destruct (in_dec string_dec c cols) as [Hin | Hout];
          [assumption |].
        apply IH in Hout. discriminate.
      * split; [| reflexivity]. intros _ [Heq | Hin]; [congruence |].
        now apply (proj1 IH).
Qed.







(** ** Sorting by descending score *)

Lemma key_ge_total (x y : float) : key_ge x y = false -> key_ge y x = true.
Proof.
  destruct x as [a |], y as [b |]; simpl; try congruence.
  intros H. apply Qle_bool_iff. apply Qlt_le_weak. apply Qnot_le_lt.
  intros Hle. apply Qle_bool_iff in Hle. congruence.
Qed.

Lemma key_ge_trans (x y z : float) :
  key_ge x y = true -> key_ge y z = true -> key_ge x z = true.
Proof.
  destruct x as [a |], y as [b |], z as [c |]; simpl; try congruence.
  rewrite !Qle_bool_iff. intros H1 H2. eapply Qle_trans; eassumption.
Qed.

Lemma insert_desc_perm (key : Row -> float) (r : Row) (rs : list Row) :
  Permutation (insert_desc key r rs) (r :: rs).
Proof.
  induction rs as [| r' rs IH]; simpl.
  - apply Permutation_refl.
  - destruct (key_ge (key r) (key r')).
    + apply Permutation_refl.
    + eapply perm_trans; [apply perm_skip, IH | apply perm_swap].
Qed.

Lemma sort_desc_perm (key : Row -> float) (rs : list Row) :
  Permutation (sort_desc key rs) rs.
Proof.
  induction rs as [| r rs IH]; simpl.
  - apply Permutation_refl.
  - eapply perm_trans; [apply insert_desc_perm | now apply perm_skip].
Qed.

Lemma insert_desc_hd (key : Row -> float) (r a : Row) (rs : list Row) :
  key_order key a r -> HdRel (key_order key) a rs ->
  HdRel (key_order key) a (insert_desc key r rs).
Proof.
  intros Har Hhd. destruct rs as [| r' rs]; simpl.
  - now constructor.
  - destruct (key_ge (key r) (key r')).
    + now constructor.
    + inversion Hhd; subst. now constructor.
Qed.

Lemma insert_desc_sorted (key : Row -> float) (r : Row) (rs : list Row) :
  Sorted (key_order key) rs -> Sorted (key_order key) (insert_desc key r rs).
Proof.
  induction rs as [| r' rs IH]; simpl; intros Hs.
  - constructor; constructor.
  - inversion Hs as [| ? ? Hs' Hhd]; subst.
    destruct (key_ge (key r) (key r')) eqn:E.
    + constructor; [assumption |]. now constructor.
    + constructor; [now apply IH |].
      apply insert_desc_hd; [| assumption].
      now apply key_ge_total.
Qed.

Lemma sort_desc_sorted (key : Row -> float) (rs : list Row) :
  StronglySorted (key_order key) (sort_desc key rs).
Proof.
  apply Sorted_StronglySorted.
  - intros a b c. apply key_ge_trans.
  - induction rs as [| r rs IH]; simpl.
    + constructor.
    + now apply insert_desc_sorted.
Qed.

Lemma sort_desc_ext (key key' : Row -> float) (rs : list Row) :
  (forall r, key r = key' r) -> sort_desc key rs = sort_desc key' rs.
Proof.
  intros H. induction rs as [| r rs IH]; simpl; [reflexivity |].
  rewrite IH. generalize (sort_desc key' rs). intros l.
  induction l as [| r' l IHl]; simpl; [reflexivity |].
  now rewrite !H, IHl.
Qed.

(** A mapping read off rows in key order, none of whose keys is NaN, is
    descending. *)
Lemma sorted_rows_descending (key : Row -> float) (rs : list Row) :
  StronglySorted (key_order key) rs ->
  (forall r, In r rs -> key r <> None) ->
  descending (map (fun r => (doc_id r, key r)) rs).
Proof.
  unfold descending. induction rs as [| r rs IH]; simpl; intros Hs Hkey.
  - constructor.
  - inversion Hs as [| ? ? Hs' Hall]; subst. constructor.
    + apply IH; [assumption |]. intros r' Hin. apply Hkey. now right.
    + apply Forall_map. rewrite Forall_forall in *. intros r' Hin.
      specialize (Hall r' Hin). unfold key_order in Hall.
      unfold score_ge. cbn [snd].
      pose proof (Hkey r (or_introl eq_refl)) as Hr.
      pose proof (Hkey r' (or_intror Hin)) as Hr'.
      destruct (key r) as [x |], (key r') as [y |]; try congruence.
      now apply Qle_bool_iff.
Qed.

(** ** Cleaning and naming the score column *)

Lemma index_of_rename (cols : list string) (old new : string) :
  ~ In new cols ->
  index_of new (map (fun c => if String.eqb c old then new else c) cols)
  = index_of old cols.
Proof.
  induction cols as [| c0 cols IH]; simpl; intros Hnew.
  - reflexivity.
  - assert (Hne : new <> c0) by (intros ->; apply Hnew; now left).
    rewrite IH by (intros Hin; apply Hnew; now right).
    destruct (String.eqb c0 old) eqn:E.
    + apply String.eqb_eq in E. subst c0. now rewrite !String.eqb_refl.
    + rewrite (String.eqb_sym old c0), E.
      apply String.eqb_neq in Hne. now rewrite Hne.
Qed.

Lemma cell_rename (cols : list string) (old new : string) (r : Row) :
  ~ In new cols ->
  cell (map (fun c => if String.eqb c old then new else c) cols) new r
  = cell cols old r.
Proof.
  intros H. unfold cell. now rewrite index_of_rename.
Qed.

Lemma str_in_rename (cols : list string) (old new : string) :
  str_in old cols = true ->
  str_in new (map (fun c => if String.eqb c old then new else c) cols) = true.
Proof.
  rewrite !str_in_In. intros H. apply in_map_iff. exists old.
  split; [now rewrite String.eqb_refl | assumption].
Qed.

Lemma finalize_renamed (cols : list string) (rs : list Row) (old : string) :
  str_in "score" cols = false ->
  str_in old cols = true ->
  (let* sorted := sort_values_desc "score" (rename old "score" (mkFrame cols rs)) in
   let* pairs := zip_doc_id "score" sorted in
   Ok (Dict.of_items pairs))
  = Ok (Dict.of_items
          (map (fun r => (doc_id r, cell cols old r))
               (sort_desc (cell cols old) rs))).
Proof.
  intros Hnew Hold.
  pose proof (str_in_rename cols old "score" Hold) as Hhas.
  apply str_in_not_In in Hnew.
  unfold sort_values_desc, zip_doc_id, has_column, rename.
  cbn [columns rows]. rewrite Hhas. cbn [bind columns rows]. rewrite Hhas.
  cbn [bind]. f_equal. f_equal.
  rewrite (sort_desc_ext _ (cell cols old))
    by (intros r; now apply cell_rename).
  apply map_ext. intros r. now rewrite cell_rename.
Qed.

(** What lines 274-278 do with a frame that has a complete row. *)
Lemma finalize_complete (df : DataFrame) :
  complete_rows df <> [] ->
  finalize df
  = match score_label df with
    | Some label =>
        Ok (Dict.of_items
              (map (fun r => (doc_id r, cell (columns df) label r))
                   (sort_desc (cell (columns df) label) (complete_rows df))))
    | None => Raise ValueError
    end.
Proof.
  intros Hrows. unfold finalize, _rename_score_column, score_label.
  change (dropna df) with (mkFrame (columns df) (complete_rows df)).
  unfold has_column, len. cbn [columns rows].
  replace (Nat.eqb (List.length (complete_rows df)) 0) with false
    by (destruct (complete_rows df); [congruence | reflexivity]).
  rewrite orb_false_r.
  destruct (str_in "score" (columns df)) eqn:Escore.
  - cbn [bind fst]. unfold sort_values_desc, zip_doc_id, has_column.
    cbn [columns rows]. rewrite Escore. cbn [bind columns rows].
    now rewrite Escore.
  - destruct (str_in "_score" (columns df)) eqn:E1.
    + cbn [bind fst]. now apply finalize_renamed.
    + destruct (str_in "_relevance_score" (columns df)) eqn:E2.
      * cbn [bind fst]. now apply finalize_renamed.
      * reflexivity.
Qed.

(** The same lines on a frame without a complete row. *)
Lemma finalize_no_complete (df : DataFrame) :
  complete_rows df = [] ->
  finalize df
  = if has_column "score" df then Ok [] else Raise KeyError.
Proof.
  intros Hrows. unfold finalize, _rename_score_column.
  change (dropna df) with (mkFrame (columns df) (complete_rows df)).
  unfold has_column, len. cbn [columns rows]. rewrite Hrows.
  cbn [List.length Nat.eqb]. rewrite orb_true_r. cbn [bind fst].
  unfold sort_values_desc, zip_doc_id, has_column. cbn [columns rows].
  destruct (str_in "score" (columns df)) eqn:E; [| reflexivity].
  cbn [bind columns rows]. now rewrite E.
Qed.

Lemma existsb_false_In {A : Type} (f : A -> bool) (l : list A) :
  existsb f l = false -> forall x, In x l -> f x = false.
Proof.
  induction l as [| a l IH]; simpl; intros H x Hin.
  - contradiction.
  - apply orb_false_iff in H. destruct H as [Ha Hl].
    destruct Hin as [-> | Hin]; auto.
Qed.

Lemma complete_cell (df : DataFrame) (r : Row) (c : string) :
  In r (complete_rows df) -> str_in c (columns df) = true ->
  cell (columns df) c r <> None.
Proof.
  unfold complete_rows. rewrite filter_In. intros [_ Hna] Hc.
  apply negb_true_iff in Hna. unfold has_na in Hna.
  apply str_in_In in Hc.
  pose proof (existsb_false_In _ _ Hna c Hc) as Hcell.
  cbv beta in Hcell. intros Hnan. rewrite Hnan in Hcell. discriminate.
Qed.

Lemma score_label_column (df : DataFrame) (label : string) :
  score_label df = Some label -> str_in label (columns df) = true.
Proof.
  unfold score_label, has_column.
  destruct (str_in "score" (columns df)) eqn:E0; [now intros [= <-] |].
  destruct (str_in "_score" (columns df)) eqn:E1; [now intros [= <-] |].
  destruct (str_in "_relevance_score" (columns df)) eqn:E2;
    [now intros [= <-] | discriminate].
Qed.

Lemma dict_set_In {V : Type} (k k' : string) (v v' : V) (d : Dict.t V) :
  In (k, v) (Dict.set k' v' d) -> (k, v) = (k', v') \/ In (k, v) d.
Proof.
  induction d as [| [k0 v0] d IH]; simpl.
  - intros [H | []]. left. now symmetry.
  - destruct (String.eqb k' k0); simpl.
    + intros [H | H]; [left; now symmetry | right; now right].
    + intros [H | H]; [right; now left |].
      destruct (IH H) as [Heq | Hin]; [now left | right; now right].
Qed.

Lemma dict_of_items_In {V : Type} (items : list (string * V)) (k : string)
  (v : V) :
  In (k, v) (Dict.of_items items) -> In (k, v) items.
Proof.
  unfold Dict.of_items.
  assert (H : forall acc,
             In (k, v)
                (fold_left (fun d kv => Dict.set (fst kv) (snd kv) d)
                           items acc) ->
             In (k, v) acc \/ In (k, v) items).
  { induction items as [| [k0 v0] items IH]; intros acc Hin; simpl in *.
    - now left.
    - destruct (IH _ Hin) as [Hacc | Hitems]; [| right; now right].
      destruct (dict_set_In _ _ _ _ _ Hacc) as [Heq | Hin'];
        [right; left; now symmetry | now left]. }
  intros Hin. destruct (H [] Hin) as [[] | Hitems]. assumption.
Qed.

Lemma dict_of_items_keys_in {V : Type} (items : list (string * V))
  (k : string) :
  In k (Dict.keys (Dict.of_items items)) <-> In k (map fst items).
Proof.
  unfold Dict.of_items.
  assert (H : forall acc,
             In k (Dict.keys
                     (fold_left (fun d kv => Dict.set (fst kv) (snd kv) d)
                                items acc))
             <-> In k (Dict.keys acc) \/ In k (map fst items)).
  { induction items as [| [k0 v0] items IH]; intros acc; simpl.
    - intuition.
    - rewrite IH, dict_set_keys_in. intuition. }
  rewrite H. simpl. intuition.
Qed.

(** C5 (as amended): a candidate row with a missing value, its score in
    particular, is dropped on its own.  When the frame of a query has a
    complete row and a column named [score], [_score] or [_relevance_score],
    the query's mapping is built, its document ids are exactly those of the
    complete rows, and each score is the one a complete row carries in that
    column.  When the frame has a complete row and none of these columns,
    [_rename_score_column] raises [ValueError]. *)
Theorem incomplete_rows_dropped_alone :
  forall df : DataFrame,
    complete_rows df <> [] ->
    match score_label df with
    | Some label =>
        exists mapping,
          finalize df = Ok mapping
          /\ (forall d,
                 In d (Dict.keys mapping)
                 <-> exists r, In r (rows df)
                               /\ has_na (columns df) r = false
                               /\ doc_id r = d)
          /\ (forall d x,
                 In (d, x) mapping ->
                 x <> nan
                 /\ exists r, In r (rows df)
                              /\ has_na (columns df) r = false
                              /\ doc_id r = d
                              /\ cell (columns df) label r = x)
    | None => finalize df = Raise ValueError
    end.
Proof.
  intros df Hrows. rewrite (finalize_complete df Hrows).
  destruct (score_label df) as [label |] eqn:Elabel; [| reflexivity].
  eexists. split; [reflexivity |].
  assert (Hin : forall r,
             In r (sort_desc (cell (columns df) label) (complete_rows df))
             <-> In r (rows df) /\ has_na (columns df) r = false).
  { intros r. split.
    - intros H. apply (Permutation_in _ (sort_desc_perm _ _)) in H.
      unfold complete_rows in H. apply filter_In in H.
      destruct H as [H1 H2]. apply negb_true_iff in H2. tauto.
    - intros [H1 H2].
      apply (Permutation_in _ (Permutation_sym (sort_desc_perm _ _))).
      unfold complete_rows. apply filter_In.
      split; [assumption | now apply negb_true_iff]. }
  split.
  - intros d. rewrite dict_of_items_keys_in, map_map. cbn [fst].
    rewrite in_map_iff. split.
    + intros [r [Hid Hr]]. exists r. apply Hin in Hr. tauto.
    + intros [r [Hr [Hna Hid]]]. exists r. split; [assumption |].
      apply Hin. tauto.
  - intros d x Hpair. apply dict_of_items_In in Hpair.
    apply in_map_iff in Hpair. destruct Hpair as [r [Heq Hr]].
    injection Heq as <- <-. split.
    + apply complete_cell; [| now apply score_label_column].
      eapply Permutation_in; [apply sort_desc_perm | exact Hr].
    + exists r. apply Hin in Hr. tauto.
Qed.

(** The witness of C5: three candidates, the second without a score. *)
Lemma incomplete_rows_dropped_alone_witness :
  exists mapping,
    finalize (mkFrame ["_relevance_score"]
                [mkRow "d1" [Some (1 # 2)]; mkRow "d2" [nan];
                 mkRow "d3" [Some (9 # 10)]])
    = Ok mapping
    /\ (In "d1" (Dict.keys mapping) /\ In "d3" (Dict.keys mapping))
    /\ ~ In "d2" (Dict.keys mapping).
Proof.
  destruct (incomplete_rows_dropped_alone
              (mkFrame ["_relevance_score"]
                 [mkRow "d1" [Some (1 # 2)]; mkRow "d2" [nan];
                  mkRow "d3" [Some (9 # 10)]])
              ltac:(discriminate))
    as [mapping [Hrun [Hkeys _]]].
  exists mapping. split; [exact Hrun |]. split; [split |].
  - apply Hkeys. exists (mkRow "d1" [Some (1 # 2)]).
    simpl. intuition.
  - apply Hkeys. exists (mkRow "d3" [Some (9 # 10)]).
    simpl. intuition.
  - intros H. apply Hkeys in H. destruct H as [r [Hr [Hna Hid]]].
    simpl in Hr. destruct Hr as [<- | [<- | [<- | []]]];
      simpl in *; discriminate.
Defined.

(** The counterexample of C5: the dense stage returns, for the first of two
    queries, a candidate in a frame without any score column.  The row is
    not dropped: the renaming raises [ValueError], nothing catches it, and
    the call ends with that exception, without a result for either query. *)
Lemma missing_score_column_counterexample :
  hybrid_retrieve_rerank
    (mkServices (fun _ _ => None)
       (fun _ qt _ _ =>
          match qt with
          | hybrid => Some (mkFrame [] [mkRow "d1" []])
          | _ => None
          end))
    [("q1", "first"); ("q2", "second")] initial_world 10 None
  = (Raise ValueError,
     mkWorld [Search hybrid "first" 10; ChatCompletion "first"] []).
Proof.
  reflexivity.
Qed.

(** ** The order of a query's mapping *)

Lemma dedup_nodup (rs : list Row) (seen : list string) :
  NoDup (map doc_id (dedup seen rs))
  /\ forall r, In r (dedup seen rs) -> ~ In (doc_id r) seen.
Proof.
  revert seen. induction rs as [| r rs IH]; intros seen; simpl.
  - split; [constructor | intros r []].
  - destruct (str_in (doc_id r) seen) eqn:E.
    + apply IH.
    + destruct (IH (doc_id r :: seen)) as [Hnd Hout]. split.
      * simpl. constructor; [| assumption].
        rewrite in_map_iff. intros [r' [Hid Hin]].
        apply (Hout r' Hin). left. now symmetry.
      * intros r' [<- | Hin].
        -- now apply str_in_not_In.
        -- intros Hseen. apply (Hout r' Hin). now right.
Qed.

(** Dropping rows keeps the remaining document ids distinct. *)
Lemma kept_rows_distinct (keep : Row -> bool) (rs : list Row) :
  NoDup (map doc_id rs) -> NoDup (map doc_id (filter keep rs)).
Proof.
  intros Hdistinct. induction rs as [| r rs IH]; [constructor |].
  simpl in Hdistinct. apply NoDup_cons_iff in Hdistinct.
  destruct Hdistinct as [Hfresh Hrest]. simpl.
  destruct (keep r); [| now apply IH].
  simpl. apply NoDup_cons; [| now apply IH].
  intros Hin. apply Hfresh. apply in_map_iff in Hin.
  destruct Hin as [r' [Hid Hr']]. apply filter_In in Hr'.
  apply in_map_iff. exists r'. tauto.
Qed.

Lemma combine_nodup (retrieved_docs_1 retrieved_docs : DataFrame) :
  (empty retrieved_docs_1 = true ->
   NoDup (map doc_id (rows retrieved_docs))) ->
  NoDup (map doc_id (rows (combine retrieved_docs_1 retrieved_docs))).
Proof.
  intros H. unfold combine.
  destruct (empty retrieved_docs_1); cbn [negb].
  - now apply H.
  - cbn [drop_duplicates rows]. apply dedup_nodup.
Qed.

(** A mapping that [finalize] builds from rows with pairwise distinct
    document ids lists them by descending score. *)
Lemma finalize_descending (df : DataFrame) (mapping : Dict.t float) :
  finalize df = Ok mapping ->
  NoDup (map doc_id (rows df)) ->
  descending mapping.
Proof.
  intros Hrun Hnd.
  destruct (complete_rows df) as [| r0 rest] eqn:Erows.
  - rewrite (finalize_no_complete df Erows) in Hrun.
    destruct (has_column "score" df); [| discriminate].
    injection Hrun as <-. constructor.
  - assert (Hne : complete_rows df <> []) by (rewrite Erows; discriminate).
    rewrite (finalize_complete df Hne) in Hrun.
    destruct (score_label df) as [label |] eqn:Elabel; [| discriminate].
    injection Hrun as <-.
    set (sorted := sort_desc (cell (columns df) label) (complete_rows df)).
    rewrite dict_of_items_distinct.
    + apply sorted_rows_descending; [apply sort_desc_sorted |].
      intros r Hin. apply complete_cell; [| now apply score_label_column].
      eapply Permutation_in; [apply sort_desc_perm | exact Hin].
    + rewrite map_map. cbn [fst].
      apply (Permutation_NoDup
               (Permutation_sym
                  (Permutation_map doc_id
                     (sort_desc_perm (cell (columns df) label)
                                     (complete_rows df))))).
      unfold complete_rows. now apply kept_rows_distinct.
Qed.

Lemma finalize_keys_nodup (df : DataFrame) (mapping : Dict.t float) :
  finalize df = Ok mapping -> NoDup (Dict.keys mapping).
Proof.
  intros Hrun.
  destruct (complete_rows df) as [| r0 rest] eqn:Erows.
  - rewrite (finalize_no_complete df Erows) in Hrun.
    destruct (has_column "score" df); [| discriminate].
    injection Hrun as <-. constructor.
  - assert (Hne : complete_rows df <> []) by (rewrite Erows; discriminate).
    rewrite (finalize_complete df Hne) in Hrun.
    destruct (score_label df); [| discriminate].
    injection Hrun as <-. apply dict_of_items_nodup.
Qed.

Lemma dense_stage_source (sv : Services) (w : World) (query : string)
  (top_k : Z) (df : DataFrame) :
  fst (dense_stage sv w query top_k) = Some df ->
  exists log qt, qt <> fts /\ search sv log qt query top_k = Some df.
Proof.
  unfold dense_stage, run_search.
  destruct (search sv (calls w) hybrid query top_k) as [df' |] eqn:E.
  - cbn [fst]. intros [= <-]. exists (calls w), hybrid.
    split; [discriminate | assumption].
  - cbn [fst calls]. intros H.
    exists (Search hybrid query top_k :: calls w), vector.
    split; [discriminate | assumption].
Qed.

Lemma hybrid_loop_values (Pm : Dict.t float -> Prop) (sv : Services)
  (top_k : Z) (query_ids : option (list string))
  (items : list (string * string)) (results results' : RankingResult)
  (w w' : World) :
  Pm [] ->
  (forall d1 w0 query df mapping,
      fst (dense_stage sv w0 query top_k) = Some df ->
      finalize (combine d1 df) = Ok mapping -> Pm mapping) ->
  hybrid_loop sv top_k query_ids items results w = (Ok results', w') ->
  Forall Pm (Dict.values results) -> Forall Pm (Dict.values results').
Proof.
  intros Hnil Hfin. revert results w.
  induction items as [| [q_id query] items IH]; intros results w Hrun Hall.
  - simpl in Hrun. now injection Hrun as <- _.
  - cbn [hybrid_loop] in Hrun.
    destruct (skipped query_ids q_id); [now apply (IH results w) |].
    destruct (fts_stage sv w query top_k) as [retrieved_docs_1 w1].
    destruct (dense_stage sv w1 query top_k) as [[retrieved_docs |] w2]
      eqn:Edense.
    + destruct (finalize (combine retrieved_docs_1 retrieved_docs))
        as [mapping |] eqn:Efin; [| discriminate].
      apply (IH _ _ Hrun). apply dict_set_values_Forall; [| assumption].
      apply (Hfin retrieved_docs_1 w1 query retrieved_docs mapping);
        [now rewrite Edense | assumption].
    + apply (IH _ _ Hrun). now apply dict_set_values_Forall.
Qed.

(** C2 (as amended): every mapping that [hybrid_retrieve_rerank] stores for
    a query has pairwise distinct document ids and lists them by descending
    score, equal scores allowed, provided a hybrid or vector search never
    returns the same document twice. *)
Theorem mappings_descending :
  forall (sv : Services) (queries : Dict.t string) (w w' : World)
         (top_k : Z) (query_ids : option (list string))
         (results : RankingResult) (q_id : string) (mapping : Dict.t float),
    (forall log qt query df,
        qt <> fts -> search sv log qt query top_k = Some df ->
        NoDup (map doc_id (rows df))) ->
    hybrid_retrieve_rerank sv queries w top_k query_ids = (Ok results, w') ->
    Dict.get q_id results = Some mapping ->
    descending mapping /\ NoDup (Dict.keys mapping).
Proof.
  intros sv queries w w' top_k query_ids results q_id mapping Hindex Hrun Hget.
  unfold hybrid_retrieve_rerank in Hrun.
  assert (Hall :
    Forall (fun m => descending m /\ NoDup (Dict.keys m))
           (Dict.values results)).
  { apply (hybrid_loop_values _ sv top_k query_ids queries [] results w w');
      [| | assumption | constructor].
    - split; constructor.
    - intros d1 w0 query df m Hdense Hfin. split.
      + apply (finalize_descending _ _ Hfin). apply combine_nodup.
        intros _. destruct (dense_stage_source _ _ _ _ _ Hdense)
          as [log [qt [Hqt Hsearch]]].
        now apply (Hindex log qt query df).
      + now apply (finalize_keys_nodup _ _ Hfin). }
  rewrite Forall_forall in Hall. apply Hall.
  apply dict_get_In in Hget. unfold Dict.values.
  now apply (in_map snd) in Hget.
Qed.

(** The witness of C2: two documents with the same score after one with a
    greater score. *)
Lemma mappings_descending_witness :
  descending [("c", Some 2); ("a", Some 1); ("b", Some 1)]
  /\ NoDup (Dict.keys [("c", Some 2); ("a", Some 1); ("b", Some 1)]).
Proof.
  apply (mappings_descending
           (mkServices (fun _ _ => None)
              (fun _ qt _ _ =>
                 match qt with
                 | hybrid =>
                     Some (mkFrame ["_relevance_score"]
                             [mkRow "a" [Some 1]; mkRow "b" [Some 1];
                              mkRow "c" [Some 2]])
                 | _ => None
                 end))
           [("q1", "first")] initial_world
           (mkWorld [Search hybrid "first" 10; ChatCompletion "first"] [])
           10 None
           [("q1", [("c", Some 2); ("a", Some 1); ("b", Some 1)])] "q1").
  - intros log qt query df Hqt Hsearch. simpl in Hsearch.
    destruct qt; try discriminate. injection Hsearch as <-. simpl.
    repeat constructor; simpl; intuition discriminate.
  - reflexivity.
  - reflexivity.
Defined.

(** The counterexample of C2: two documents with the same score.  The
    mapping of the query lists them one after the other, so its scores are
    not strictly descending. *)
Lemma equal_scores_counterexample :
  fst (hybrid_retrieve_rerank
         (mkServices (fun _ _ => None)
            (fun _ qt _ _ =>
               match qt with
               | hybrid =>
                   Some (mkFrame ["_relevance_score"]
                           [mkRow "a" [Some 1]; mkRow "b" [Some 1]])
               | _ => None
               end))
         [("q1", "first")] initial_world 10 None)
  = Ok [("q1", [("a", Some 1); ("b", Some 1)])]
  /\ ~ strictly_descending [("a", Some 1); ("b", Some 1)].
Proof.
  split; [reflexivity |].
  unfold strictly_descending. intros H.
  inversion H as [| ? ? _ Hhd]; subst.
  inversion Hhd as [| ? ? Hgt]; subst.
  unfold score_gt in Hgt. simpl in Hgt.
  now apply Qlt_irrefl in Hgt.
Qed.

(** ** Fusion followed by the removal of missing values *)

(** The full-text frame reaches the concatenation with its score column
    renamed to [score], the dense frame with the label the reranker gave
    it.  With different labels every fused row has a missing value under
    the other label, and [dropna] leaves none of them. *)
Lemma fusion_then_dropna_example :
  fst (hybrid_retrieve_rerank
         (mkServices (fun _ _ => Some "revenue, income")
            (fun _ qt _ _ =>
               match qt with
               | fts =>
                   Some (mkFrame ["_relevance_score"]
                           [mkRow "D" [Some (9 # 10)];
                            mkRow "E" [Some (1 # 2)]])
               | hybrid =>
                   Some (mkFrame ["_relevance_score"]
                           [mkRow "F" [Some (3 # 10)];
                            mkRow "D" [Some (1 # 10)]])
               | vector => None
               end))
         [("q1", "first")] initial_world 10 None)
  = Ok [("q1", [])].
Proof.
  reflexivity.
Qed.

(** Without the fusion step nothing removes a repeated document id from the
    dense frame: the dictionary comprehension keeps the position of the
    first row of the document and the score of its last row. *)
Lemma repeated_document_example :
  fst (hybrid_retrieve_rerank
         (mkServices (fun _ _ => None)
            (fun _ qt _ _ =>
               match qt with
               | hybrid =>
                   Some (mkFrame ["_relevance_score"]
                           [mkRow "a" [Some 9]; mkRow "b" [Some 5];
                            mkRow "a" [Some 1]])
               | _ => None
               end))
         [("q1", "first")] initial_world 10 None)
  = Ok [("q1", [("a", Some 1); ("b", Some 5)])].
Proof.
  reflexivity.
Qed.

(* ================================================================== *)
(** * Part III: further properties of the code *)
(* ================================================================== *)

(** ** Loading *)

Lemma find_app_split {A : Type} (f : A -> bool) (l1 l2 : list A) :
  find f (l1 ++ l2)
  = match find f l1 with
    | Some x => Some x
    | None => find f l2
    end.
Proof.
  induction l1 as [| a l1 IH]; simpl; [reflexivity |].
  now destruct (f a).
Qed.

Lemma dict_fold_get {V : Type} (items : list (string * V)) (acc : Dict.t V)
  (k : string) :
  Dict.get k (fold_left (fun d kv => Dict.set (fst kv) (snd kv) d) items acc)
  = match find (fun kv => String.eqb k (fst kv)) (rev items) with
    | Some kv => Some (snd kv)
    | None => Dict.get k acc
    end.
Proof.
  revert acc. induction items as [| [k0 v0] items IH]; intros acc; simpl.
  - reflexivity.
  - rewrite IH, find_app_split.
    destruct (find (fun kv => String.eqb k (fst kv)) (rev items));
      [reflexivity |].
    simpl. rewrite dict_get_set. now destruct (String.eqb k k0).
Qed.

(** The last item with a key decides the value of the comprehension. *)
Lemma dict_of_items_get {V : Type} (items : list (string * V)) (k : string) :
  Dict.get k (Dict.of_items items)
  = option_map snd (find (fun kv => String.eqb k (fst kv)) (rev items)).
Proof.
  unfold Dict.of_items. rewrite dict_fold_get.
  now destruct (find (fun kv => String.eqb k (fst kv)) (rev items)).
Qed.

Lemma find_rev_map {A B : Type} (g : A -> B) (f : B -> bool) (l : list A) :
  find f (rev (map g l)) = option_map g (find (fun a => f (g a)) (rev l)).
Proof.
  rewrite <- map_rev. induction (rev l) as [| a l' IH]; simpl.
  - reflexivity.
  - now destruct (f (g a)).
Qed.

(** X1: [load_data] on a task that lacks its corpus or its queries stores
    both anew from the loaded rows, keeps the stage results, and gives each
    id one entry: when the loader yields several rows with the same id, the
    text (or document) of the last such row is the one stored. *)
Theorem load_data_last_row_wins :
  forall (task : BaseTask) (docs : list DocumentRecord)
         (rows_ : list QueryRecord),
    corpus task = None \/ queries task = None ->
    exists q c,
      load_data task (Ok (docs, rows_))
      = Ok (mkBaseTask (Some q) (Some c) (retrieve_results task)
                       (rerank_results task) (generate_results task))
      /\ NoDup (Dict.keys q) /\ NoDup (Dict.keys c)
      /\ (forall id,
             Dict.get id q
             = option_map query_text
                 (find (fun r => String.eqb id (query_id r)) (rev rows_)))
      /\ (forall id,
             Dict.get id c
             = option_map
                 (fun d => mkDocument (document_title d) (document_text d))
                 (find (fun d => String.eqb id (document_id d)) (rev docs))).
Proof.
  intros task docs rows_ Hmissing.
  eexists. eexists. split; [| split; [| split; [| split]]].
  - unfold load_data.
    destruct Hmissing as [H | H]; rewrite H;
      [| destruct (corpus task)]; reflexivity.
  - apply dict_of_items_nodup.
  - apply dict_of_items_nodup.
  - intros id. rewrite dict_of_items_get, find_rev_map. cbn [fst snd].
    now destruct (find (fun r => String.eqb id (query_id r)) (rev rows_)).
  - intros id. rewrite dict_of_items_get, find_rev_map. cbn [fst snd].
    now destruct (find (fun d => String.eqb id (document_id d)) (rev docs)).
Qed.

(** The witness of X1: two rows for the query id [q1]. *)
Lemma load_data_last_row_wins_witness :
  exists task',
    load_data (mkBaseTask None None None None None)
      (Ok ([mkDocumentRecord "d1" "T" "body"],
           [mkQueryRecord "q1" "old"; mkQueryRecord "q2" "other";
            mkQueryRecord "q1" "new"]))
    = Ok task'
    /\ option_map (Dict.get "q1") (queries task') = Some (Some "new").
Proof.
  destruct (load_data_last_row_wins (mkBaseTask None None None None None)
              [mkDocumentRecord "d1" "T" "body"]
              [mkQueryRecord "q1" "old"; mkQueryRecord "q2" "other";
               mkQueryRecord "q1" "new"]
              (or_introl eq_refl))
    as [q [c [Hrun [_ [_ [Hq _]]]]]].
  eexists. split; [exact Hrun |].
  cbn [queries option_map]. now rewrite Hq.
Defined.

(** ** Batches of the corpus *)

Lemma range_from_batches {A : Type} (l : list A) (b : nat) (fuel i : nat) :
  (0 < b)%nat -> (List.length l - i <= fuel)%nat ->
  List.concat
    (map (fun i =>
            if Nat.leb (i + b) (List.length l) then slice l i (i + b)
            else skipn i l)
         (range_from fuel i (List.length l) b))
  = skipn i l.
Proof.
  intros Hb. revert i. induction fuel as [| fuel IH]; intros i Hfuel; simpl.
  - symmetry. apply skipn_all2. lia.
  - destruct (Nat.ltb i (List.length l)) eqn:Ei.
    + apply Nat.ltb_lt in Ei. simpl. rewrite IH by lia.
      destruct (Nat.leb (i + b) (List.length l)) eqn:Eb.
      * unfold slice. replace (i + b - i)%nat with b by lia.
        rewrite Nat.add_comm, <- skipn_skipn. apply firstn_skipn.
      * apply Nat.leb_gt in Eb.
        rewrite (skipn_all2 l (n := i + b)) by lia. apply app_nil_r.
    + apply Nat.ltb_ge in Ei. symmetry. apply skipn_all2. lia.
Qed.

Lemma range_from_bounds (fuel i stop step : nat) :
  Forall (fun j => (j < stop)%nat) (range_from fuel i stop step).
Proof.
  revert i. induction fuel as [| fuel IH]; intros i; simpl.
  - constructor.
  - destruct (Nat.ltb i stop) eqn:E; [| constructor].
    apply Nat.ltb_lt in E. constructor; [assumption | apply IH].
Qed.

(** X2: for a positive [batch_size] the batches handed to the table cover
    the corpus exactly: put end to end, in order, they are the corpus
    list, so every document is added once; no batch is empty and none is
    longer than [batch_size]. *)
Theorem corpus_batches_cover :
  forall (A : Type) (corpus_list : list A) (batch_size : Z),
    (0 < batch_size)%Z ->
    exists batches,
      corpus_batches corpus_list batch_size = Ok batches
      /\ List.concat batches = corpus_list
      /\ Forall (fun batch =>
                   batch <> []
                   /\ (Z.of_nat (List.length batch) <= batch_size)%Z)
                batches.
Proof.
  intros A l b Hb. unfold corpus_batches, range0.
  replace (b =? 0)%Z with false by (symmetry; apply Z.eqb_neq; lia).
  replace (b <? 0)%Z with false by (symmetry; apply Z.ltb_ge; lia).
  cbn [bind]. eexists. split; [reflexivity |]. split.
  - rewrite range_from_batches by lia. reflexivity.
  - apply Forall_map.
    eapply Forall_impl; [| apply range_from_bounds].
    intros i Hi. cbv beta in *.
    destruct (Nat.leb (i + Z.to_nat b) (List.length l)) eqn:E.
    + apply Nat.leb_le in E. unfold slice.
      replace (i + Z.to_nat b - i)%nat with (Z.to_nat b) by lia.
      assert (Hlen : List.length (firstn (Z.to_nat b) (skipn i l))
                     = Z.to_nat b).
      { rewrite length_firstn, length_skipn. lia. }
      split; [| lia].
      intros Hnil. rewrite Hnil in Hlen. simpl in Hlen. lia.
    + apply Nat.leb_gt in E.
      assert (Hlen : List.length (skipn i l) = (List.length l - i)%nat)
        by apply length_skipn.
      split; [| lia].
      intros Hnil. rewrite Hnil in Hlen. simpl in Hlen. lia.
Qed.

(** The witness of X2: five documents in batches of two. *)
Lemma corpus_batches_cover_witness :
  exists batches,
    corpus_batches ["a"; "b"; "c"; "d"; "e"] 2 = Ok batches
    /\ List.concat batches = ["a"; "b"; "c"; "d"; "e"]
    /\ Forall (fun batch =>
                 batch <> [] /\ (Z.of_nat (List.length batch) <= 2)%Z)
              batches.
Proof.
  apply (corpus_batches_cover string ["a"; "b"; "c"; "d"; "e"] 2).
  lia.
Defined.

(** ** Punctuation *)

Lemma remove_punctuation_app (a b : string) :
  _remove_punctuation (a ++ b)
  = (_remove_punctuation a ++ _remove_punctuation b)%string.
Proof.
  induction a as [| c a IH]; simpl; [reflexivity |].
  destruct (is_punctuation c); simpl; now rewrite IH.
Qed.

Lemma remove_punctuation_chars (s : string) (c : ascii) :
  In c (list_ascii_of_string (_remove_punctuation s))
  <-> In c (list_ascii_of_string s) /\ is_punctuation c = false.
Proof.
  induction s as [| c0 s IH]; simpl.
  - tauto.
  - destruct (is_punctuation c0) eqn:E; simpl; rewrite IH.
    + split; [tauto |]. intros [[-> | H] Hc]; [congruence | tauto].
    + split; [intros [-> | H]; tauto | tauto].
Qed.

(** X3: [_remove_punctuation] deletes exactly the characters of its class:
    a character occurs in the output if and only if it occurs in the input
    and is not in the class.  The function works piece by piece, and
    applying it twice changes nothing more. *)
Theorem remove_punctuation_exact :
  forall s : string,
    (forall c,
        In c (list_ascii_of_string (_remove_punctuation s))
        <-> In c (list_ascii_of_string s) /\ is_punctuation c = false)
    /\ (forall t,
           _remove_punctuation (s ++ t)
           = (_remove_punctuation s ++ _remove_punctuation t)%string)
    /\ _remove_punctuation (_remove_punctuation s) = _remove_punctuation s.
Proof.
  intros s. split; [| split].
  - intros c. apply remove_punctuation_chars.
  - intros t. apply remove_punctuation_app.
  - induction s as [| c s IH]; simpl; [reflexivity |].
    destruct (is_punctuation c) eqn:E; [exact IH |].
    simpl. now rewrite E, IH.
Qed.

(** ** The stages of the pipeline *)


(** X5: after a [retrieve] that returned, a [rerank] called without
    [results] reranks exactly the output of that [retrieve]: the call is
    the call with that output passed explicitly, and an accepted reranker
    receives the loaded queries, the corpus and that output. *)
Theorem rerank_consumes_retrieve_output :
  forall (task task1 : BaseTask) (retriever : RetrievalModel)
         (reranker : RerankerModel) (top_k : option Z)
         (retrieved : RankingResult) (rerank_top_k : Z)
         (batch_size : option Z),
    retrieve task retriever top_k = (Ok retrieved, task1) ->
    rerank task1 reranker None rerank_top_k batch_size
    = rerank task1 reranker (Some retrieved) rerank_top_k batch_size
    /\ exists q c,
         queries task = Some q /\ corpus task = Some c
         /\ (is_reranker reranker = true ->
             fst (rerank task1 reranker None rerank_top_k batch_size)
             = rerank_method reranker q c retrieved rerank_top_k batch_size).
Proof.
  intros task task1 retriever reranker top_k retrieved rk bs Hret.
  unfold retrieve in Hret.
  destruct (is_retrieval retriever); cbn [negb] in Hret; [| discriminate].
  destruct (corpus task) as [c |] eqn:Ec; [| discriminate].
  destruct (queries task) as [q |] eqn:Eq; [| discriminate].
  destruct (retrieve_method retriever q c top_k) as [r |]; [| discriminate].
  injection Hret as <- <-.
  split.
  - unfold rerank. cbn [set_retrieve_results corpus queries retrieve_results].
    reflexivity.
  - exists q, c. split; [reflexivity |]. split; [reflexivity |].
    intros Hok. unfold rerank. rewrite Hok.
    cbn [negb set_retrieve_results corpus queries retrieve_results].
    rewrite Ec, Eq. cbn [bind].
    now destruct (rerank_method reranker q c r rk bs).
Qed.

(** The witness of X5: a retriever and a reranker that always answer. *)
Lemma rerank_consumes_retrieve_output_witness :
  let task := mkBaseTask (Some [("q1", "first")])
                (Some [("d1", mkDocument "T" "body")]) None None None in
  let retriever :=
    mkRetrievalModel true (fun _ _ _ => Ok [("q1", [("d1", Some 1)])]) in
  let reranker := mkRerankerModel true (fun _ _ r _ _ => Ok r) in
  rerank (snd (retrieve task retriever (Some 100%Z))) reranker None 100 None
  = rerank (snd (retrieve task retriever (Some 100%Z))) reranker
      (Some [("q1", [("d1", Some 1)])]) 100 None.
Proof.
  intros task retriever reranker.
  apply (proj1 (rerank_consumes_retrieve_output task
                  (snd (retrieve task retriever (Some 100%Z)))
                  retriever reranker (Some 100%Z)
                  [("q1", [("d1", Some 1)])] 100 None eq_refl)).
Defined.

(** ** Generation inputs *)

(** A NaN score in first place is never replaced. *)
Lemma max_by_score_nan (documents : list (Document * float))
  (best : Document * float) :
  snd best = None -> snd (max_by_score best documents) = None.
Proof.
  revert best. induction documents as [| x rest IH]; intros best Hbest.
  - exact Hbest.
  - cbn [max_by_score].
    assert (Hcmp : float_gt (snd x) (snd best) = false)
      by (rewrite Hbest; now destruct (snd x)).
    rewrite Hcmp. now apply IH.
Qed.

Lemma max_by_score_spec (documents : list (Document * float))
  (best : Document * float) :
  let chosen := max_by_score best documents in
  In chosen (best :: documents)
  /\ float_gt (snd best) (snd chosen) = false
  /\ forall d, In d documents -> float_gt (snd d) (snd chosen) = false.
Proof.
  revert best. induction documents as [| x rest IH]; intros best; simpl.
  - split; [now left |]. split; [| intros d []].
    destruct (snd best); simpl; [| reflexivity].
    apply negb_false_iff, Qle_bool_iff, Qle_refl.
  - destruct (float_gt (snd x) (snd best)) eqn:E.
    + destruct (IH x) as [Hin [Hx Hrest]]. split; [| split].
      * destruct Hin as [<- | Hin]; [right; now left | right; now right].
      * destruct (snd best) as [b |] eqn:Eb; [| reflexivity].
        destruct (snd (max_by_score x rest)) as [m |] eqn:Em;
          [| reflexivity].
        destruct (snd x) as [a |] eqn:Ea; [| discriminate].
        simpl in *. apply negb_false_iff, Qle_bool_iff.
        apply negb_false_iff, Qle_bool_iff in Hx.
        apply negb_true_iff in E.
        apply Qlt_le_weak. eapply Qlt_le_trans; [| exact Hx].
        apply Qnot_le_lt. intros Hle. apply Qle_bool_iff in Hle. congruence.
      * intros d [<- | Hd]; [exact Hx | now apply Hrest].
    + destruct (IH best) as [Hin [Hb Hrest]]. split; [| split].
      * destruct Hin as [<- | Hin]; [now left | right; now right].
      * exact Hb.
      * intros d [Heq | Hd]; [subst d | now apply Hrest].
        destruct (snd x) as [a |] eqn:Ea; [| reflexivity].
        destruct (snd (max_by_score best rest)) as [m |] eqn:Em;
          [| reflexivity].
        destruct (snd best) as [b |] eqn:Eb.
        -- simpl in *. apply negb_false_iff, Qle_bool_iff.
           apply negb_false_iff, Qle_bool_iff in Hb.
           apply negb_false_iff, Qle_bool_iff in E.
           eapply Qle_trans; eassumption.
        -- rewrite (max_by_score_nan rest best Eb) in Em. discriminate.
Qed.

(** X6: the default message builder puts into the prompt a document of the
    candidate list that no other candidate outscores, and it raises
    [ValueError] for an empty candidate list. *)
Theorem default_messages_picks_top_document :
  forall (query : string) (documents : list (Document * float)),
    match documents with
    | [] => default_messages query documents = Raise ValueError
    | _ :: _ =>
        exists chosen,
          In chosen documents
          /\ (forall d, In d documents ->
                        float_gt (snd d) (snd chosen) = false)
          /\ default_messages query documents
             = Ok [mkMessage "system" (Text "You are a helpful assistant.");
                   mkMessage "user" (DocumentPrompt (fst chosen) query)]
    end.
Proof.
  intros query [| d rest]; [reflexivity |].
  destruct (max_by_score_spec rest d) as [Hin [Hbest Hrest]].
  exists (max_by_score d rest). split; [exact Hin |]. split.
  - intros d' [<- | Hd]; [exact Hbest | now apply Hrest].
  - reflexivity.
Qed.

Lemma lookup_documents_total (c : Dict.t Document) (r : Dict.t float) :
  (forall d, In d (Dict.keys r) -> Dict.get d c <> None) ->
  exists docs,
    lookup_documents c r = Ok docs /\ List.length docs = List.length r.
Proof.
  induction r as [| [d s] r IH]; intros Hall; simpl.
  - exists []. split; reflexivity.
  - destruct (Dict.get d c) as [doc |] eqn:E.
    + destruct IH as [docs [Hdocs Hlen]].
      { intros d' Hd'. apply Hall. now right. }
      rewrite Hdocs. cbn [bind]. eexists. split; [reflexivity |].
      simpl. now rewrite Hlen.
    + exfalso. apply (Hall d); [now left | assumption].
Qed.

Lemma prepare_loop_empty_mapping (q : Dict.t string) (c : Dict.t Document)
  (items : list (string * Dict.t float)) (acc : Dict.t (list Message))
  (query_id : string) :
  (forall qid r, In (qid, r) items ->
                 Dict.get qid q <> None
                 /\ forall d, In d (Dict.keys r) -> Dict.get d c <> None) ->
  In (query_id, []) items ->
  prepare_loop q c default_messages items acc = Raise ValueError.
Proof.
  revert acc. induction items as [| [qid r] items IH]; intros acc Hknown Hin.
  - contradiction.
  - cbn [prepare_loop].
    destruct (Hknown qid r (or_introl eq_refl)) as [Hq Hdocs].
    destruct (Dict.get qid q) as [query |]; [| congruence].
    destruct (lookup_documents_total c r Hdocs) as [docs [Hlook Hlen]].
    rewrite Hlook. cbn [bind].
    destruct docs as [| d docs].
    + reflexivity.
    + cbn [default_messages bind]. apply IH.
      * intros qid' r' Hin'. apply Hknown. now right.
      * destruct Hin as [Heq | Hin]; [| assumption].
        injection Heq as _ ->. simpl in Hlen. discriminate.
Qed.

(** X7: with the default message builder, [generate] cannot run on results
    in which some query has an empty mapping, as [hybrid_retrieve_rerank]
    stores for a query whose searches all fail: when all ids of the results
    are known to the task, the call raises [ValueError] and stores
    nothing. *)
Theorem empty_mapping_breaks_generate :
  forall (task : BaseTask) (q : Dict.t string) (c : Dict.t Document)
         (model : GeneratorModel) (results : RankingResult)
         (query_id : string),
    queries task = Some q ->
    corpus task = Some c ->
    is_generator model = true ->
    (forall qid r, In (qid, r) results ->
                   Dict.get qid q <> None
                   /\ forall d, In d (Dict.keys r) -> Dict.get d c <> None) ->
    In (query_id, []) results ->
    generate task model (Some results) None = (Raise ValueError, task).
Proof.
  intros task q c model results query_id Hq Hc Hmodel Hknown Hin.
  unfold generate. rewrite Hmodel. cbn [negb generation_input bind].
  unfold prepare_generation_inputs. rewrite Hq, Hc.
  now rewrite (prepare_loop_empty_mapping q c results [] query_id Hknown Hin).
Qed.

(** The witness of X7: the second query has no candidate. *)
Lemma empty_mapping_breaks_generate_witness :
  generate
    (mkBaseTask (Some [("q1", "first"); ("q2", "second")])
                (Some [("d1", mkDocument "T" "body")]) None None None)
    (mkGeneratorModel true (fun _ => Ok []))
    (Some [("q1", [("d1", Some 1)]); ("q2", [])]) None
  = (Raise ValueError,
     mkBaseTask (Some [("q1", "first"); ("q2", "second")])
                (Some [("d1", mkDocument "T" "body")]) None None None).
Proof.
  apply (empty_mapping_breaks_generate _
           [("q1", "first"); ("q2", "second")]
           [("d1", mkDocument "T" "body")] _ _ "q2");
    try reflexivity.
  - intros qid r [Heq | [Heq | []]]; injection Heq as <- <-; simpl.
    + split; [discriminate |]. intros d [<- | []]. discriminate.
    + split; [discriminate |]. intros d [].
  - simpl. right. left. reflexivity.
Defined.

Lemma lookup_documents_known (c : Dict.t Document) (r : Dict.t float)
  (docs : list (Document * float)) :
  lookup_documents c r = Ok docs ->
  forall d, In d (Dict.keys r) -> Dict.mem d c = true.
Proof.
  revert docs. induction r as [| [d0 s] r IH]; intros docs Hrun d Hd.
  - contradiction.
  - simpl in Hrun. destruct (Dict.get d0 c) as [doc |] eqn:E;
      [| discriminate].
    destruct (lookup_documents c r) as [ds |] eqn:Er; [| discriminate].
    destruct Hd as [<- | Hd].
    + unfold Dict.mem. simpl. now rewrite E.
    + now apply (IH ds).
Qed.

Lemma prepare_loop_ok (q : Dict.t string) (c : Dict.t Document)
  (pm : PrepareMessages) (items : list (string * Dict.t float))
  (acc out : Dict.t (list Message)) :
  prepare_loop q c pm items acc = Ok out ->
  (forall qid, In qid (Dict.keys out)
               <-> In qid (Dict.keys acc) \/ In qid (Dict.keys items))
  /\ (forall qid r, In (qid, r) items ->
                    Dict.mem qid q = true
                    /\ forall d, In d (Dict.keys r) -> Dict.mem d c = true).
Proof.
  revert acc. induction items as [| [qid0 r0] items IH]; intros acc Hrun.
  - simpl in Hrun. injection Hrun as <-. split.
    + intros qid. simpl. tauto.
    + intros qid r [].
  - cbn [prepare_loop] in Hrun.
    destruct (Dict.get qid0 q) as [query |] eqn:Eq; [| discriminate].
    destruct (lookup_documents c r0) as [docs |] eqn:Edocs; [| discriminate].
    cbn [bind] in Hrun.
    destruct (pm query docs) as [messages |]; [| discriminate].
    cbn [bind] in Hrun.
    destruct (IH _ Hrun) as [Hkeys Hknown]. split.
    + intros qid. rewrite Hkeys, dict_set_keys_in. simpl.
      intuition (subst; auto).
    + intros qid r [Heq | Hin]; [| now apply Hknown].
      injection Heq as <- <-. split.
      * unfold Dict.mem. now rewrite Eq.
      * now apply (lookup_documents_known c r0 docs).
Qed.

(** X8: when [prepare_generation_inputs] returns, it has prepared messages
    for exactly the queries of the results, and every query id of the
    results was a loaded query and every document id a document of the
    corpus; results that mention an id the task does not know never get as
    far as the generation model. *)
Theorem generation_inputs_cover_results :
  forall (task : BaseTask) (results : RankingResult)
         (prepare_messages : PrepareMessages)
         (messages_dict : Dict.t (list Message)),
    prepare_generation_inputs task results prepare_messages
    = Ok messages_dict ->
    (forall qid, In qid (Dict.keys messages_dict)
                 <-> In qid (Dict.keys results))
    /\ exists q c,
         queries task = Some q /\ corpus task = Some c
         /\ forall qid r, In (qid, r) results ->
              Dict.mem qid q = true
              /\ forall d, In d (Dict.keys r) -> Dict.mem d c = true.
Proof.
  intros task results pm out Hrun. unfold prepare_generation_inputs in Hrun.
  destruct (corpus task) as [c |]; [| discriminate].
  destruct (queries task) as [q |]; [| discriminate].
  destruct (prepare_loop_ok q c pm results [] out Hrun) as [Hkeys Hknown].
  split.
  - intros qid. rewrite Hkeys. simpl. tauto.
  - exists q, c. split; [reflexivity |]. split; [reflexivity | exact Hknown].
Qed.

(** The witness of X8: one query with one candidate. *)
Lemma generation_inputs_cover_results_witness :
  In "q1"
     (Dict.keys
        [("q1",
          [mkMessage "system" (Text "You are a helpful assistant.");
           mkMessage "user"
             (DocumentPrompt (mkDocument "T" "body") "first")])])
  <-> In "q1" (Dict.keys [("q1", [("d1", Some 1)])]).
Proof.
  apply (proj1 (generation_inputs_cover_results
                  (mkBaseTask (Some [("q1", "first")])
                     (Some [("d1", mkDocument "T" "body")]) None None None)
                  [("q1", [("d1", Some 1)])] default_messages
                  [("q1",
                    [mkMessage "system" (Text "You are a helpful assistant.");
                     mkMessage "user"
                       (DocumentPrompt (mkDocument "T" "body") "first")])]
                  eq_refl) "q1").
Defined.

(** ** Saved rankings *)










(** ** The keyword cache, continued *)

(** X10: a keyword expansion that fails is not cached.  The failed call
    has asked the chat client once and left the cache as it was, and the
    next call for the same text asks the client again. *)
Theorem failed_expansion_not_cached :
  forall (sv : Services) (w w1 : World) (query : string) (e : exn),
    keyword_extraction_expansion sv w query = (Raise e, w1) ->
    kw_cache w1 = kw_cache w
    /\ calls w1 = ChatCompletion query :: calls w
    /\ calls (snd (keyword_extraction_expansion sv w1 query))
       = ChatCompletion query :: calls w1.
Proof.
  intros sv w w1 query e.
  unfold keyword_extraction_expansion, keyword_extraction_expansion_body.
  destruct (cache_find query (kw_cache w)) as [v |] eqn:Efind;
    [discriminate |].
  destruct (chat sv (calls w) query); [discriminate |].
  intros [= _ <-]. cbn [kw_cache calls]. rewrite Efind.
  split; [reflexivity |]. split; [reflexivity |].
  now destruct (chat sv (ChatCompletion query :: calls w) query).
Qed.

(** The witness of X10: a client that always fails. *)
Lemma failed_expansion_not_cached_witness :
  kw_cache (snd (keyword_extraction_expansion
                   (mkServices (fun _ _ => None) (fun _ _ _ _ => None))
                   initial_world "sales"))
  = kw_cache initial_world.
Proof.
  apply (proj1 (failed_expansion_not_cached
                  (mkServices (fun _ _ => None) (fun _ _ _ _ => None))
                  initial_world _ "sales" CollaboratorError eq_refl)).
Defined.

Lemma cache_remove_keys (k : string) (c : list (string * list string)) :
  (forall k', In k' (map fst (cache_remove k c)) -> In k' (map fst c))
  /\ (NoDup (map fst c) ->
      NoDup (map fst (cache_remove k c))
      /\ ~ In k (map fst (cache_remove k c)))
  /\ (cache_find k c <> None ->
      S (List.length (cache_remove k c)) = List.length c).
Proof.
  induction c as [| [k0 v0] c [IHin [IHnd IHlen]]]; simpl.
  - split; [tauto |]. split; [| congruence].
    intros _. split; [constructor | tauto].
  - destruct (String.eqb k k0) eqn:E.
    + apply String.eqb_eq in E. subst k0. split; [tauto |]. split.
      * intros Hnd. inversion Hnd; subst. now split.
      * reflexivity.
    + apply String.eqb_neq in E. simpl. split; [| split].
      * intros k' [<- | H]; [now left | right; now apply IHin].
      * intros Hnd. inversion Hnd as [| ? ? Hnotin Hnd']; subst.
        destruct (IHnd Hnd') as [Hnd'' Hout]. split.
        -- constructor; [| assumption]. intros H. apply Hnotin.
           now apply IHin.
        -- intros [Heq | H]; [congruence | contradiction].
      * intros Hfind. now rewrite (IHlen Hfind).
Qed.

Lemma cache_find_none_keys (k : string) (c : list (string * list string)) :
  cache_find k c = None -> ~ In k (map fst c).
Proof.
  induction c as [| [k0 v0] c IH]; simpl.
  - tauto.
  - destruct (String.eqb k k0) eqn:E; [discriminate |].
    apply String.eqb_neq in E. intros H [Heq | Hin]; [congruence |].
    now apply IH.
Qed.

Lemma removelast_keys (c : list (string * list string)) :
  (forall k, In k (map fst (removelast c)) -> In k (map fst c))
  /\ (NoDup (map fst c) -> NoDup (map fst (removelast c))).
Proof.
  induction c as [| [k0 v0] c [IHin IHnd]].
  - simpl. split; [tauto | intros _; constructor].
  - destruct c as [| e c'].
    + simpl. split; [tauto | intros _; constructor].
    + change (removelast ((k0, v0) :: e :: c'))
        with ((k0, v0) :: removelast (e :: c')).
      change (map fst ((k0, v0) :: removelast (e :: c')))
        with (k0 :: map fst (removelast (e :: c'))).
      change (map fst ((k0, v0) :: e :: c'))
        with (k0 :: map fst (e :: c')).
      split.
      * intros k [<- | H]; [now left | right; now apply IHin].
      * intros Hnd. inversion Hnd as [| ? ? Hnotin Hnd']; subst.
        constructor; [| now apply IHnd].
        intros H. apply Hnotin. now apply IHin.
Qed.

Lemma keyword_call_keeps_cache_ok (sv : Services) (w : World)
  (query : string) :
  cache_ok (kw_cache w) ->
  cache_ok (kw_cache (snd (keyword_extraction_expansion sv w query))).
Proof.
  intros [Hnd Hlen]. rewrite keyword_cache_after.
  destruct (cache_find query (kw_cache w)) as [v |] eqn:Efind.
  - destruct (cache_remove_keys query (kw_cache w)) as [_ [Hrnd Hrlen]].
    destruct (Hrnd Hnd) as [Hnd' Hout].
    unfold cache_ok, cache_touch. cbn [map fst List.length]. split.
    + now constructor.
    + rewrite Hrlen; [assumption | congruence].
  - destruct (chat sv (calls w) query) as [response |]; [| now split].
    pose proof (cache_find_none_keys _ _ Efind) as Hfresh.
    unfold cache_ok, cache_store.
    destruct (Nat.leb maxsize (List.length (kw_cache w))) eqn:Efull;
      cbn [map fst List.length].
    + apply Nat.leb_le in Efull.
      destruct (removelast_keys (kw_cache w)) as [Hin Hnd']. split.
      * constructor; [| now apply Hnd'].
        intros H. apply Hfresh. now apply Hin.
      * assert (Hne : kw_cache w <> []).
        { intros Hnil. rewrite Hnil in Efull. unfold maxsize in Efull.
          simpl in Efull. lia. }
        destruct (exists_last Hne) as [front [lst Heq]].
        rewrite Heq, removelast_last.
        rewrite Heq, length_app in Hlen. simpl in Hlen. lia.
    + apply Nat.leb_gt in Efull. split; [now constructor | lia].
Qed.

Lemma hybrid_loop_keeps_cache_ok (sv : Services) (top_k : Z)
  (query_ids : option (list string)) (items : list (string * string))
  (results : RankingResult) (w : World) :
  cache_ok (kw_cache w) ->
  cache_ok (kw_cache (snd (hybrid_loop sv top_k query_ids items results w))).
Proof.
  revert results w.
  induction items as [| [q_id query] items IH]; intros results w Hok.
  - exact Hok.
  - cbn [hybrid_loop]. destruct (skipped query_ids q_id); [now apply IH |].
    assert (Hfts : cache_ok (kw_cache (snd (fts_stage sv w query top_k)))).
    { unfold fts_stage.
      pose proof (keyword_call_keeps_cache_ok sv w query Hok) as Hk.
      destruct (keyword_extraction_expansion sv w query)
        as [[keywords | e] w1]; cbn [snd] in *; [| exact Hk].
      unfold run_search.
      destruct (search sv (calls w1) fts (join "; " keywords) top_k)
        as [df |]; [| exact Hk].
      destruct (_rename_score_column df "score") as [[? ?] | ?]; exact Hk. }
    destruct (fts_stage sv w query top_k) as [retrieved_docs_1 w1].
    cbn [snd] in Hfts.
    assert (Hdense :
      cache_ok (kw_cache (snd (dense_stage sv w1 query top_k)))).
    { unfold dense_stage, run_search.
      destruct (search sv (calls w1) hybrid query top_k); exact Hfts. }
    destruct (dense_stage sv w1 query top_k) as [[retrieved_docs |] w2];
      cbn [snd] in Hdense.
    + destruct (finalize (combine retrieved_docs_1 retrieved_docs));
        [now apply IH | exact Hdense].
    + now apply IH.
Qed.

(** X11: the keyword cache stays well formed through a whole run of
    [hybrid_retrieve_rerank]: it never holds two entries for one query text
    and never more than [maxsize] = 1000 entries. *)
Theorem keyword_cache_stays_bounded :
  forall (sv : Services) (queries : Dict.t string) (w : World) (top_k : Z)
         (query_ids : option (list string)),
    cache_ok (kw_cache w) ->
    cache_ok
      (kw_cache (snd (hybrid_retrieve_rerank sv queries w top_k query_ids))).
Proof.
  intros. unfold hybrid_retrieve_rerank.
  now apply hybrid_loop_keeps_cache_ok.
Qed.

(** The witness of X11: a run that starts with the empty cache. *)
Lemma keyword_cache_stays_bounded_witness :
  cache_ok
    (kw_cache
       (snd (hybrid_retrieve_rerank
               (mkServices (fun _ _ => Some "revenue, income")
                           (fun _ _ _ _ => None))
               [("q1", "first"); ("q2", "second")] initial_world 10 None))).
Proof.
  apply keyword_cache_stays_bounded.
  split; [constructor | unfold maxsize; simpl; lia].
Defined.

(** ** The result of [hybrid_retrieve_rerank], continued *)

Lemma hybrid_loop_keys (sv : Services) (top_k : Z)
  (query_ids : option (list string)) (items : list (string * string))
  (results results' : RankingResult) (w w' : World) :
  hybrid_loop sv top_k query_ids items results w = (Ok results', w') ->
  (forall q_id,
      In q_id (Dict.keys results')
      <-> In q_id (Dict.keys results)
          \/ In q_id (Dict.keys (processed query_ids items)))
  /\ (NoDup (Dict.keys results) -> NoDup (Dict.keys results')).
Proof.
  revert results w.
  induction items as [| [q_id query] items IH]; intros results w Hrun.
  - simpl in Hrun. injection Hrun as <- _. split; [| tauto].
    intros q. simpl. tauto.
  - cbn [hybrid_loop] in Hrun. cbn [processed filter fst].
    fold (processed query_ids items).
    destruct (skipped query_ids q_id); cbn [negb]; [now apply (IH results w) |].
    destruct (fts_stage sv w query top_k) as [retrieved_docs_1 w1].
    destruct (dense_stage sv w1 query top_k) as [[retrieved_docs |] w2].
    + destruct (finalize (combine retrieved_docs_1 retrieved_docs))
        as [mapping |]; [| discriminate].
      destruct (IH _ _ Hrun) as [Hkeys Hnd]. split.
      * intros q. rewrite Hkeys, dict_set_keys_in. simpl.
        intuition (subst; auto).
      * intros H. now apply Hnd, dict_set_keys_nodup.
    + destruct (IH _ _ Hrun) as [Hkeys Hnd]. split.
      * intros q. rewrite Hkeys, dict_set_keys_in. simpl.
        intuition (subst; auto).
      * intros H. now apply Hnd, dict_set_keys_nodup.
Qed.

(** X12: when [hybrid_retrieve_rerank] returns, its result has one entry
    for every query it went through and for no other: the keys are exactly
    the ids of the loaded queries that [query_ids] does not exclude, each
    once, whether the searches of a query succeeded or failed. *)
Theorem one_entry_per_processed_query :
  forall (sv : Services) (queries : Dict.t string) (w w' : World)
         (top_k : Z) (query_ids : option (list string))
         (results : RankingResult),
    hybrid_retrieve_rerank sv queries w top_k query_ids = (Ok results, w') ->
    NoDup (Dict.keys results)
    /\ forall q_id,
         In q_id (Dict.keys results)
         <-> In q_id (Dict.keys (processed query_ids queries)).
Proof.
  intros sv queries w w' top_k query_ids results Hrun.
  unfold hybrid_retrieve_rerank in Hrun.
  destruct (hybrid_loop_keys _ _ _ _ _ _ _ _ Hrun) as [Hkeys Hnd].
  split.
  - apply Hnd. constructor.
  - intros q. rewrite Hkeys. simpl. tauto.
Qed.

(** The witness of X12: a failed query and a successful one. *)
Lemma one_entry_per_processed_query_witness :
  NoDup (Dict.keys [("q1", @nil (string * float)); ("q2", [("d1", Some 1)])])
  /\ forall q_id,
       In q_id (Dict.keys [("q1", @nil (string * float));
                           ("q2", [("d1", Some 1)])])
       <-> In q_id (Dict.keys (processed None
                                 [("q1", "first"); ("q2", "second")])).
Proof.
  apply (one_entry_per_processed_query
           (mkServices (fun _ _ => None)
              (fun _ qt q _ =>
                 match qt with
                 | vector =>
                     if String.eqb q "second"
                     then Some (mkFrame ["_relevance_score"]
                                        [mkRow "d1" [Some 1]])
                     else None
                 | _ => None
                 end))
           [("q1", "first"); ("q2", "second")] initial_world
           (mkWorld [Search vector "second" 10; Search hybrid "second" 10;
                     ChatCompletion "second"; Search vector "first" 10;
                     Search hybrid "first" 10; ChatCompletion "first"] [])
           10 None).
  reflexivity.
Defined.

Lemma realign_cell_under (cols cols' : list string) (c : string) (r : Row) :
  In c cols' -> cell cols' c (realign cols cols' r) = cell cols c r.
Proof.
  intros Hin. unfold cell at 1. cbn [realign cells].
  destruct (index_of c cols') as [i |] eqn:E.
  - now rewrite (index_of_nth c cols' i E).
  - apply index_of_none in E. contradiction.
Qed.

Lemma cell_absent (cols : list string) (c : string) (r : Row) :
  ~ In c cols -> cell cols c r = nan.
Proof.
  intros H. unfold cell. apply index_of_none in H. now rewrite H.
Qed.

Lemma dedup_subset (rs : list Row) (seen : list string) (r : Row) :
  In r (dedup seen rs) -> In r rs.
Proof.
  revert seen. induction rs as [| r0 rs IH]; intros seen; simpl.
  - tauto.
  - destruct (str_in (doc_id r0) seen).
    + intros H. right. now apply (IH seen).
    + intros [<- | H]; [now left | right; now apply (IH _ H)].
Qed.

(** X13: when the full-text frame reaches the fusion with a [score] column
    and the dense frame has no [score] column but a column the full-text
    frame lacks, which is the case when both come from the reranker with a
    [_relevance_score] column and the full-text one has been renamed, every
    fused row has a missing value and is dropped: the query's mapping is
    empty, whatever the two searches found. *)
Theorem fusion_of_differently_labelled_frames_is_empty :
  forall (retrieved_docs_1 retrieved_docs : DataFrame) (c : string),
    empty retrieved_docs_1 = false ->
    has_column "score" retrieved_docs_1 = true ->
    has_column "score" retrieved_docs = false ->
    In c (columns retrieved_docs) ->
    ~ In c (columns retrieved_docs_1) ->
    finalize (combine retrieved_docs_1 retrieved_docs) = Ok [].
Proof.
  intros d1 d c Hne Hscore1 Hscore Hc Hc1.
  unfold combine. rewrite Hne. cbn [negb].
  set (cols := columns d1 ++ new_labels (columns d1) (columns d)).
  assert (Hscore_in : In "score" cols).
  { apply in_or_app. left. now apply str_in_In. }
  assert (Hc_in : In c cols).
  { apply in_or_app. right. unfold new_labels. apply filter_In.
    split; [assumption |]. apply negb_true_iff. now apply str_in_not_In. }
  rewrite finalize_no_complete.
  - unfold has_column. cbn [drop_duplicates columns concat]. fold cols.
    now rewrite (proj2 (str_in_In "score" cols) Hscore_in).
  - apply filter_none. intros r Hr.
    cbn [drop_duplicates columns rows concat] in *. fold cols in Hr |- *.
    apply dedup_subset in Hr. apply negb_false_iff.
    unfold has_na. apply existsb_exists.
    apply in_app_or in Hr. destruct Hr as [Hr | Hr];
      apply in_map_iff in Hr; destruct Hr as [r0 [<- _]].
    + exists c. split; [assumption |].
      rewrite realign_cell_under by assumption.
      now rewrite cell_absent.
    + exists "score". split; [assumption |].
      rewrite realign_cell_under by assumption.
      rewrite cell_absent; [reflexivity |].
      now apply str_in_not_In.
Qed.

(** The witness of X13: the frames of a full-text search, renamed, and of
    a hybrid search. *)
Lemma fusion_of_differently_labelled_frames_is_empty_witness :
  finalize
    (combine
       (mkFrame ["score"] [mkRow "D" [Some (9 # 10)]; mkRow "E" [Some (1 # 2)]])
       (mkFrame ["_relevance_score"]
          [mkRow "F" [Some (3 # 10)]; mkRow "D" [Some (1 # 10)]]))
  = Ok [].
Proof.
  apply (fusion_of_differently_labelled_frames_is_empty _ _
           "_relevance_score").
  - reflexivity.
  - reflexivity.
  - reflexivity.
  - simpl. now left.
  - simpl. intros [H | []]. discriminate.
Defined.

(** X14: a query for which the full-text stage has nothing and the dense
    search returns a frame without rows and without a [score] column ends
    the whole call: the sort raises [KeyError], nothing catches it, and the
    mappings gathered for the earlier queries are not returned. *)
Theorem empty_search_result_aborts_run :
  forall (sv : Services) (top_k : Z) (query_ids : option (list string))
         (q_id query : string) (rest : list (string * string))
         (results : RankingResult) (w : World) (retrieved_docs : DataFrame),
    skipped query_ids q_id = false ->
    empty (fst (fts_stage sv w query top_k)) = true ->
    fst (dense_stage sv (snd (fts_stage sv w query top_k)) query top_k)
    = Some retrieved_docs ->
    rows retrieved_docs = [] ->
    has_column "score" retrieved_docs = false ->
    fst (hybrid_loop sv top_k query_ids ((q_id, query) :: rest) results w)
    = Raise KeyError.
Proof.
  intros sv top_k query_ids q_id query rest results w d
         Hskip Hfts Hdense Hrows Hscore.
  cbn [hybrid_loop]. rewrite Hskip.
  destruct (fts_stage sv w query top_k) as [d1 w1]. cbn [fst snd] in *.
  destruct (dense_stage sv w1 query top_k) as [dense w2].
  cbn [fst] in Hdense. subst dense.
  unfold combine. rewrite Hfts. cbn [negb].
  rewrite finalize_no_complete.
  - now rewrite Hscore.
  - unfold complete_rows. now rewrite Hrows.
Qed.

(** The witness of X14: the second of two queries finds nothing. *)
Lemma empty_search_result_aborts_run_witness :
  fst (hybrid_loop
         (mkServices (fun _ _ => None)
            (fun _ qt _ _ =>
               match qt with
               | hybrid => Some (mkFrame ["_relevance_score"] [])
               | _ => None
               end))
         10 None [("q2", "second")] [("q1", [("d1", Some 1)])]
         initial_world)
  = Raise KeyError.
Proof.
  apply (empty_search_result_aborts_run _ 10 None "q2" "second" []
           [("q1", [("d1", Some 1)])] initial_world
           (mkFrame ["_relevance_score"] [])); reflexivity.
Defined.

(** X15: what [_rename_score_column] does to a frame.  It never changes
    the rows.  When it returns [True] the frame was not empty and had no
    column of the new name; it has one afterwards, which holds the cells of
    the [_score] column if there was one and of the [_relevance_score]
    column otherwise.  When it returns [False] the frame is unchanged.  It
    raises only [ValueError], and only for a frame with rows and none of
    the three columns. *)
Theorem rename_score_column_effect :
  forall (df : DataFrame) (new_name : string),
    match _rename_score_column df new_name with
    | Ok (df', true) =>
        rows df' = rows df
        /\ rows df <> []
        /\ has_column new_name df = false
        /\ has_column new_name df' = true
        /\ exists old,
             old = (if has_column "_score" df then "_score"
                    else "_relevance_score")
             /\ has_column old df = true
             /\ forall r, cell (columns df') new_name r
                          = cell (columns df) old r
    | Ok (df', false) => df' = df
    | Raise e =>
        e = ValueError
        /\ rows df <> []
        /\ has_column new_name df = false
        /\ has_column "_score" df = false
        /\ has_column "_relevance_score" df = false
    end.
Proof.
  intros df new_name. unfold _rename_score_column, len.
  destruct (has_column new_name df) eqn:Enew; cbn [orb]; [reflexivity |].
  destruct (rows df) as [| r0 rs] eqn:Erows; cbn [List.length Nat.eqb];
    [reflexivity |].
  assert (Hfresh : ~ In new_name (columns df)) by now apply str_in_not_In.
  destruct (has_column "_score" df) eqn:E1.
  - cbn [rename rows]. rewrite Erows.
    split; [reflexivity |]. split; [discriminate |].
    split; [reflexivity |]. split.
    + unfold has_column. cbn [columns]. now apply str_in_rename.
    + exists "_score". split; [reflexivity |]. split; [assumption |].
      intros r. cbn [columns]. now apply cell_rename.
  - destruct (has_column "_relevance_score" df) eqn:E2.
    + cbn [rename rows]. rewrite Erows.
      split; [reflexivity |]. split; [discriminate |].
      split; [reflexivity |]. split.
      * unfold has_column. cbn [columns]. now apply str_in_rename.
      * exists "_relevance_score". split; [reflexivity |].
        split; [assumption |].
        intros r. cbn [columns]. now apply cell_rename.
    + repeat split; try reflexivity. discriminate.
Qed.

(** ** [evaluate], continued *)

Lemma filter_all {A : Type} (f : A -> bool) (l : list A) :
  (forall x, In x l -> f x = true) -> filter f l = l.
Proof.
  induction l as [| a l IH]; simpl; intros H.
  - reflexivity.
  - rewrite (H a (or_introl eq_refl)). f_equal. apply IH.
    intros x Hx. apply H. now right.
Qed.

(** X16: [evaluate] leaves the caller's results as they are when no query
    lists itself among its documents, with [ignore_identical_ids] set or
    not. *)
Theorem evaluate_keeps_results_without_self_match :
  forall (A : Arith) (pt : TrecEval A) (qrels : Qrels)
         (results : RankingResult) (k_values : list Z)
         (ignore_identical_ids : bool),
    (forall qid rels, In (qid, rels) results -> ~ In qid (Dict.keys rels)) ->
    fst (evaluate pt qrels results k_values ignore_identical_ids) = results.
Proof.
  intros A pt qrels results ks ignore Hself. unfold evaluate. cbn [fst].
  destruct ignore; [| reflexivity].
  unfold remove_identical.
  rewrite <- (map_id results) at 2. apply map_ext_in.
  intros [qid rels] Hin. cbn [fst snd]. f_equal.
  rewrite pop_identical_filter. apply filter_all.
  intros [d s] Hd. cbn [fst]. apply negb_true_iff, String.eqb_neq.
  intros ->. apply (Hself d rels Hin).
  unfold Dict.keys. now apply (in_map fst) in Hd.
Qed.

(** The witness of X16: a ranking of other documents only. *)
Lemma evaluate_keeps_results_without_self_match_witness :
  fst (evaluate (A := exact_arith) (fun _ _ => Some (fun _ _ => 1))
         [("q1", [("d1", 1%Z)])]
         [("q1", [("d1", Some 1); ("d2", Some (1 # 2))])] [10%Z] true)
  = [("q1", [("d1", Some 1); ("d2", Some (1 # 2))])].
Proof.
  apply evaluate_keeps_results_without_self_match.
  intros qid rels [Heq | []]. injection Heq as <- <-.
  simpl. intros [H | [H | []]]; discriminate.
Defined.

Lemma dict_set_keys_present {V : Type} (k : string) (v : V) (d : Dict.t V) :
  Dict.get k d <> None -> Dict.keys (Dict.set k v d) = Dict.keys d.
Proof.
  induction d as [| [k0 v0] d IH]; simpl; intros H.
  - congruence.
  - destruct (String.eqb k k0) eqn:E; simpl.
    + apply String.eqb_eq in E. now subst.
    + f_equal. now apply IH.
Qed.

Lemma bump_keys {A : Arith} (label : string) (x : num A) (d : Dict.t (num A)) :
  Dict.keys (bump label x d) = Dict.keys d.
Proof.
  unfold bump. destruct (Dict.get label d) eqn:E; [| reflexivity].
  apply dict_set_keys_present. congruence.
Qed.

Lemma rescale_keys {A : Arith} (label : string) (n : nat) (d : Dict.t (num A)) :
  Dict.keys (rescale label n d) = Dict.keys d.
Proof.
  unfold rescale. destruct (Dict.get label d) eqn:E; [| reflexivity].
  apply dict_set_keys_present. congruence.
Qed.

Lemma fold_keys_unchanged {A : Arith} {B : Type} (upd : B -> Dict.t (num A) -> Dict.t (num A))
  (l : list B) (d : Dict.t (num A)) :
  (forall b d', Dict.keys (upd b d') = Dict.keys d') ->
  Dict.keys (fold_left (fun d b => upd b d) l d) = Dict.keys d.
Proof.
  intros H. revert d. induction l as [| b l IH]; intros d; simpl.
  - reflexivity.
  - now rewrite IH, H.
Qed.

Lemma init_fold_keys {A : Arith} (mk : Z -> string) (ks : list Z) (d : Dict.t (num A))
  (label : string) :
  In label (Dict.keys (fold_left (fun d k => Dict.set (mk k) (fzero A) d) ks d))
  <-> In label (Dict.keys d) \/ exists k, In k ks /\ label = mk k.
Proof.
  revert d. induction ks as [| k ks IH]; intros d; simpl.
  - split; [tauto | intros [H | [k [[] _]]]; assumption].
  - rewrite IH, dict_set_keys_in. split.
    + intros [[-> | H] | [k' [Hk' ->]]].
      * right. exists k. tauto.
      * now left.
      * right. exists k'. tauto.
    + intros [H | [k' [[<- | Hk'] ->]]].
      * left. now right.
      * left. now left.
      * right. exists k'. tauto.
Qed.

Lemma init_fold_nodup {A : Arith} (mk : Z -> string) (ks : list Z) (d : Dict.t (num A)) :
  NoDup (Dict.keys d) ->
  NoDup (Dict.keys (fold_left (fun d k => Dict.set (mk k) (fzero A) d) ks d)).
Proof.
  revert d. induction ks as [| k ks IH]; intros d H; simpl.
  - assumption.
  - apply IH. now apply dict_set_keys_nodup.
Qed.

Lemma average_zero_raises {A : Arith} (k : Z) (ks : list Z) (m : Metrics A) :
  Dict.get (ndcg_key k) (ndcg m) <> None ->
  average 0 (k :: ks) m = Raise ZeroDivisionError.
Proof.
  intros H. unfold average. cbn [fold_left bind].
  rewrite (average_at_zero (ndcg_key k) (ndcg m) H). cbn [bind].
  apply fold_left_raise. reflexivity.
Qed.

(** X17: the four dictionaries [evaluate] returns have, each, exactly one
    key per distinct cutoff of [k_values], the label of the measure at that
    cutoff, and no other key. *)
Theorem evaluate_labels :
  forall (A : Arith) (pt : TrecEval A) (qrels : Qrels)
         (results : RankingResult) (k_values : list Z)
         (ignore_identical_ids : bool) (m : Metrics A),
    snd (evaluate pt qrels results k_values ignore_identical_ids) = Ok m ->
    forall meas,
      NoDup (Dict.keys (field meas m))
      /\ forall label,
           In label (Dict.keys (field meas m))
           <-> exists k, In k k_values /\ label = key meas k.
Proof.
  intros A pt qrels results ks ignore m Hrun meas.
  unfold evaluate in Hrun. cbn [snd] in Hrun.
  destruct ks as [| k0 ks0] eqn:Eks; [discriminate |].
  rewrite <- Eks in *.
  set (scores := trec_scores pt qrels _) in Hrun.
  assert (Hinit : labelled ks (init_metrics (A := A) ks)).
  { intros meas' k Hin. rewrite (init_metrics_get meas' ks k Hin).
    discriminate. }
  destruct (aggregate_ok scores ks (init_metrics ks) Hinit)
    as [summed [Hsum Hsum_field]].
  rewrite Hsum in Hrun. cbn [bind] in Hrun.
  assert (Hsummed_keys :
    Dict.keys (field meas summed)
    = Dict.keys (field meas (init_metrics (A := A) ks))).
  { rewrite Hsum_field.
    apply (fold_keys_unchanged
             (fun entry d =>
                fold_left (fun d k => bump (key meas k) (snd entry meas k) d)
                          ks d)).
    intros entry d'.
    apply (fold_keys_unchanged
             (fun k d => bump (key meas k) (snd entry meas k) d)).
    intros k d''. apply bump_keys. }
  assert (Hlab : labelled ks summed).
  { intros meas' k Hin. rewrite Hsum_field.
    assert (Hgen : forall (l : Dict.t (measure -> Z -> num A)) d,
               Dict.get (key meas' k) d <> None ->
               Dict.get (key meas' k)
                 (fold_left
                    (fun d entry =>
                       fold_left
                         (fun d k => bump (key meas' k) (snd entry meas' k) d)
                         ks d) l d) <> None).
    { induction l as [| entry l IHl]; intros d Hd; simpl; [assumption |].
      apply IHl. now apply bump_fold_keeps_label. }
    apply Hgen. now apply Hinit. }
  assert (Hkeys : Dict.keys (field meas m) = Dict.keys (field meas summed)).
  { destruct (List.length scores) as [| n].
    - rewrite Eks in Hrun, Hlab.
      rewrite average_zero_raises in Hrun; [discriminate |].
      apply (Hlab ndcg_cut k0). now left.
    - destruct (average_ok n ks summed Hlab) as [m' [Havg Hfield]].
      rewrite Havg in Hrun. injection Hrun as <-. rewrite Hfield.
      apply (fold_keys_unchanged
               (fun k d => rescale (key meas k) (S n) d)).
      intros k d'. apply rescale_keys. }
  rewrite Hkeys, Hsummed_keys, init_metrics_field. split.
  - apply init_fold_nodup. constructor.
  - intros label. rewrite init_fold_keys. simpl. tauto.
Qed.

(** The witness of X17: two cutoffs, one of them given twice. *)
Lemma evaluate_labels_witness :
  In "P@5" ["P@1"; "P@5"]
  <-> exists k, In k [1%Z; 5%Z; 1%Z] /\ "P@5" = key P_ k.
Proof.
  apply (proj2 (evaluate_labels exact_arith
                  (fun _ _ => Some (fun _ _ => 1))
                  [("q1", [("d1", 1%Z)])]
                  [("q1", [("d1", Some 1)])] [1%Z; 5%Z; 1%Z] true
                  (mkMetrics (A := exact_arith)
                     [("NDCG@1", 200000 # 100000); ("NDCG@5", 100000 # 100000)]
                     [("MAP@1", 200000 # 100000); ("MAP@5", 100000 # 100000)]
                     [("Recall@1", 200000 # 100000);
                      ("Recall@5", 100000 # 100000)]
                     [("P@1", 200000 # 100000); ("P@5", 100000 # 100000)])
                  ltac:(vm_compute; reflexivity) P_) "P@5").
Defined.

Lemma twice_fold_get {A : Arith} (meas : measure) (k : Z)
  (scores : Dict.t (measure -> Z -> num A)) (d : Dict.t (num A))
  (y : num A) :
  Dict.get (key meas k) d = Some y ->
  Dict.get (key meas k)
    (fold_left
       (fun d entry =>
          fold_left (fun d k => bump (key meas k) (snd entry meas k) d)
                    [k; k] d)
       scores d)
  = Some (fold_left
            (fun y x => fadd A (fadd A y x) x)
            (map (fun entry => snd entry meas k) scores) y).
Proof.
  revert d y. induction scores as [| [qid sc] scores IH]; intros d y Hy.
  - exact Hy.
  - cbn [fold_left map snd]. apply IH.
    rewrite !bump_get, String.eqb_refl, Hy. reflexivity.
Qed.

(** X18: a cutoff given twice in [k_values] does not get the mean.  For
    [k_values = [k, k]] and at least one evaluated query, every query's
    score at [k] is added twice to the sum, and the sum is divided by the
    number of evaluated queries, and rounded, twice. *)
Theorem repeated_cutoff_counts_twice :
  forall (A : Arith) (pt : TrecEval A) (qrels : Qrels)
         (results : RankingResult) (k : Z) (ignore_identical_ids : bool),
    let run := fst (evaluate pt qrels results [k; k] ignore_identical_ids) in
    let scored := evaluated pt qrels run in
    let n := List.length scored in
    scored <> [] ->
    exists m,
      snd (evaluate pt qrels results [k; k] ignore_identical_ids) = Ok m
      /\ forall meas,
           Dict.get (key meas k) (field meas m)
           = Some (fround A
                     (fdiv A
                        (fround A
                           (fdiv A
                              (fold_left
                                 (fun y x => fadd A (fadd A y x) x)
                                 (map (query_score pt qrels meas k) scored)
                                 (fzero A))
                              n))
                        n)).
Proof.
  intros A pt qrels results k ignore run scored n Hscored.
  unfold evaluate in *. cbn [fst snd] in *. fold run.
  set (scores := trec_scores pt qrels (filter_results qrels run)).
  assert (Hinit : labelled [k; k] (init_metrics (A := A) [k; k])).
  { intros meas k' Hin. rewrite (init_metrics_get meas _ k' Hin).
    discriminate. }
  destruct (aggregate_ok scores [k; k] (init_metrics [k; k]) Hinit)
    as [summed [Hsum Hsum_field]].
  rewrite Hsum. cbn [bind].
  assert (Hvalue : forall meas,
            Dict.get (key meas k) (field meas summed)
            = Some (fold_left
                      (fun y x => fadd A (fadd A y x) x)
                      (map (query_score pt qrels meas k) scored)
                      (fzero A))).
  { intros meas. rewrite Hsum_field.
    rewrite (twice_fold_get meas k scores _ (fzero A)
               (init_metrics_get meas [k; k] k (or_introl eq_refl))).
    unfold scores, scored. now rewrite trec_scores_values. }
  assert (Hlen : List.length scores = n) by apply trec_scores_length.
  rewrite Hlen.
  destruct n as [| len] eqn:En.
  { subst n. destruct scored; [congruence | discriminate]. }
  destruct (average_ok len [k; k] summed) as [m [Havg Hfield]].
  { intros meas k' [<- | [<- | []]]; rewrite Hvalue; discriminate. }
  exists m. split; [exact Havg |].
  intros meas. rewrite Hfield. cbn [fold_left].
  rewrite !rescale_get, String.eqb_refl, Hvalue. reflexivity.
Qed.

(** The witness of X18: one evaluated query whose score is 1. *)
Lemma repeated_cutoff_counts_twice_witness :
  exists m,
    snd (evaluate (A := exact_arith) (fun _ _ => Some (fun _ _ => 1))
           [("q1", [("d1", 1%Z)])]
           [("q1", [("d1", Some 1)])] [10%Z; 10%Z] true)
    = Ok m
    /\ Dict.get "NDCG@10" (ndcg m)
       = Some (round5 (round5 ((0 + 1 + 1) / inject_Z 1) / inject_Z 1)).
Proof.
  destruct (repeated_cutoff_counts_twice exact_arith
              (fun _ _ => Some (fun _ _ => 1))
              [("q1", [("d1", 1%Z)])] [("q1", [("d1", Some 1)])] 10 true
              ltac:(discriminate))
    as [m [Hrun Hvalue]].
  exists m. split; [exact Hrun |]. exact (Hvalue ndcg_cut).
Defined.

(** ** Keywords *)

Lemma string_app_assoc (a b c : string) :
  ((a ++ b) ++ c = a ++ (b ++ c))%string.
Proof.
  induction a as [| x a IH]; simpl; [reflexivity | now rewrite IH].
Qed.

Lemma string_app_nil_r (a : string) : (a ++ EmptyString)%string = a.
Proof.
  induction a as [| x a IH]; simpl; [reflexivity | now rewrite IH].
Qed.

Lemma string_length_app (a b : string) :
  String.length (a ++ b) = (String.length a + String.length b)%nat.
Proof.
  induction a as [| x a IH]; simpl; [reflexivity | now rewrite IH].
Qed.

Lemma prefix_split (p s : string) :
  String.prefix p s = true -> exists t, s = (p ++ t)%string.
Proof.
  revert s. induction p as [| c p IH]; intros s H.
  - exists s. reflexivity.
  - destruct s as [| c' s]; simpl in H; [discriminate |].
    destruct (Ascii.ascii_dec c c') as [<- | Hne]; [| discriminate].
    destruct (IH s H) as [t ->]. exists t. reflexivity.
Qed.

Lemma split_aux_skip (sep p t cur : string) :
  split_aux sep (String.length p) cur (p ++ t) = split_aux sep 0 cur t.
Proof.
  induction p as [| c p IH]; simpl; [reflexivity | exact IH].
Qed.

Lemma split_aux_nonempty (sep cur s : string) (skip : nat) :
  split_aux sep skip cur s <> [].
Proof.
  revert skip cur. induction s as [| c s IH]; intros skip cur;
    cbn [split_aux].
  - discriminate.
  - destruct skip; [| apply IH].
    destruct (String.prefix sep (String c s)); [discriminate | apply IH].
Qed.

Lemma join_cons (sep x : string) (l : list string) :
  l <> [] -> join sep (x :: l) = (x ++ sep ++ join sep l)%string.
Proof.
  destruct l; [congruence | reflexivity].
Qed.

Lemma join_split_aux (sep : string) (n : nat) :
  sep <> EmptyString ->
  forall s cur,
    (String.length s <= n)%nat ->
    join sep (split_aux sep 0 cur s) = (cur ++ s)%string.
Proof.
  intros Hsep. induction n as [| n IH]; intros s cur Hlen.
  - destruct s; [| simpl in Hlen; lia]. simpl. now rewrite string_app_nil_r.
  - destruct s as [| c s]; [simpl; now rewrite string_app_nil_r |].
    cbn [split_aux].
    destruct (String.prefix sep (String c s)) eqn:Ep.
    + destruct sep as [| c0 sep']; [congruence |].
      destruct (prefix_split _ _ Ep) as [t Ht].
      simpl in Ht. injection Ht as <- ->.
      replace (String.length (String c sep') - 1)%nat
        with (String.length sep') by (cbn [String.length]; lia).
      rewrite split_aux_skip.
      rewrite join_cons by apply split_aux_nonempty.
      rewrite IH.
      * reflexivity.
      * simpl in Hlen. rewrite string_length_app in Hlen. lia.
    + rewrite IH by (simpl in Hlen; lia).
      now rewrite string_app_assoc.
Qed.

(** X19: splitting a completion into keywords loses nothing: there is
    always at least one keyword, and the keywords joined again with the
    separator are the completion text.  This holds for any non-empty
    separator, [", "] in particular. *)
Theorem join_split_round_trip :
  forall sep s : string,
    sep <> EmptyString ->
    split sep s <> [] /\ join sep (split sep s) = s.
Proof.
  intros sep s Hsep. unfold split. split.
  - apply split_aux_nonempty.
  - now rewrite (join_split_aux sep (String.length s) Hsep s EmptyString).
Qed.

(** The witness of X19: a completion of three keywords. *)
Lemma join_split_round_trip_witness :
  split ", " "revenue, net income, 2023" <> []
  /\ join ", " (split ", " "revenue, net income, 2023")
     = "revenue, net income, 2023".
Proof.
  apply join_split_round_trip. discriminate.
Defined.
